(** * ThreadPool: an interleaving model of the worker pool and its lifecycle

    The repository holds three revisions of [thread_pool.cpp]:
    - [Rev0] is [src/thread_pool.cpp]: workers poll the queue and yield;
    - [Rev1] is [src/unnamed/part_000]: workers wait on [thread_spin_cv_],
      [stop()] writes [alive_] without the queue lock, and [spin()] tests
      [!tasks_pool_.empty()] after the wait;
    - [Rev2] is [src/unnamed/part_001]: [stop()] writes [alive_] under
      [guardian_], [spin()] tests [alive_] after the wait, and the running
      counter is a bare atomic.

    The pool object is a record of the class members.  Every thread of
    [threads_pool_] is represented by the statement of [spin()] it is about
    to execute.  One step of the system is one statement of one thread, at
    the granularity of a lock operation, an access to an atomic member or a
    critical section executed entirely under [guardian_]:
    - a worker acquires [guardian_], evaluates the wait predicate, blocks,
      tests the [if], dequeues and unlocks, increments, runs the task and
      decrements in separate steps;
    - [inc()], [dec()], [is_running()] and [running()] of [Rev0] and [Rev1]
      are one access to [running_tasks_count_] under [rtc_guardian_], a lock
      that guards nothing else: each is one step, as the atomic accesses of
      [Rev2] are;
    - [addTask], [clear], [is_pending] and [pending] are critical sections
      of [guardian_]: each is one step, enabled when the lock is free;
    - [task->run()] is one step; what the task does is not modelled.

    [start], [stop], [joinAll] and [waitForIdle] read and write
    [threads_pool_] and [alive_] without any lock; they are the calls of one
    owner thread, which is inside at most one of them at a time.  A call
    that blocks ([join()] in [clean_up()], the loop of [waitForIdle()]) is
    split at the points where other threads can run; a blocked statement is
    a step that is not enabled ([None]).  [addTask] and [clear] may come
    from any thread at any moment. *)

From Stdlib Require Import ZArith Lia Bool.
From stdpp Require Import base list.

Set Default Proof Using "Type".

(** ** Data *)

Inductive revision := Rev0 | Rev1 | Rev2.

(** A [Task*]: the identity of the task object pointed to. *)
Definition Task := nat.

Inductive STOP_POLICY := SYNC | ASYNC.
Inductive STATUS := UP | DOWN.

(** The statement of [spin()] a worker thread is about to execute.
    [AtPred], [AtBlock], [Parked] and [Woken] are the inside of
    [thread_spin_cv_.wait(lk, pred)], which is
    [while (!pred()) wait(lk);]: the predicate is evaluated with the lock
    held, and [wait(lk)] releases the lock and blocks in one atomic action. *)
Inductive spin_pc :=
| AtWhile                (* while(alive_) *)
| AtLock                 (* guardian_.lock() / unique_lock lk(guardian_) *)
| AtPred                 (* lock held: evaluate !alive_ || !tasks_pool_.empty() *)
| AtBlock                (* lock held, predicate was false: release and block *)
| Parked                 (* blocked on thread_spin_cv_, lock released *)
| Woken                  (* unblocked: re-acquire the lock, then re-evaluate *)
| AtIf                   (* lock held: the if of the loop body *)
| AtPop                  (* lock held: front(); pop(); unlock() *)
| AtInc (task : Task)    (* inc() / ++running_tasks_count_ *)
| AtRun (task : Task)    (* task->run() *)
| AtDec                  (* dec() / --running_tasks_count_ *)
| AtUnlock               (* lock held, nothing claimed: release the lock *)
| Returned.              (* spin() has returned: the thread can be joined *)

(** Where the thread that owns the pool is, inside the lifecycle call it is
    executing ([Idle]: inside none). *)
Inductive caller :=
| Idle
| InStop_notify (sp : STOP_POLICY)   (* stop(): alive_ written, notify_all() next *)
| InStop_clean_up                    (* stop(SYNC): in clean_up() *)
| InStart_clean_up                   (* start(): in clean_up() *)
| InJoinAll_clean_up                 (* joinAll(): in clean_up() *)
| InWaitForIdle_is_pending           (* waitForIdle(): about to call is_pending() *)
| InWaitForIdle_is_running.          (* waitForIdle(): is_pending() was false *)

Record ThreadPool := mkThreadPool {
  threads_count_ : nat;                 (* const std::size_t *)
  tasks_pool_ : list Task;              (* std::queue<Task*>, head first *)
  guardian_ : bool;                     (* std::mutex: true when locked *)
  threads_pool_ : list spin_pc;         (* std::vector<std::thread> *)
  alive_ : bool;                        (* std::atomic<bool> *)
  running_tasks_count_ : Z;             (* std::size_t *)
  caller_ : caller                      (* not a member: where the owner is *)
}.

(** [std::size_t] arithmetic, 64 bits wide. *)
Definition SIZE_MOD : Z := 2 ^ 64.
Definition wrap (z : Z) : Z := (z mod SIZE_MOD)%Z.

Definition set_tasks_pool (q : list Task) (p : ThreadPool) : ThreadPool :=
  mkThreadPool (threads_count_ p) q (guardian_ p) (threads_pool_ p)
               (alive_ p) (running_tasks_count_ p) (caller_ p).
Definition set_guardian (b : bool) (p : ThreadPool) : ThreadPool :=
  mkThreadPool (threads_count_ p) (tasks_pool_ p) b (threads_pool_ p)
               (alive_ p) (running_tasks_count_ p) (caller_ p).
Definition set_threads_pool (l : list spin_pc) (p : ThreadPool) : ThreadPool :=
  mkThreadPool (threads_count_ p) (tasks_pool_ p) (guardian_ p) l
               (alive_ p) (running_tasks_count_ p) (caller_ p).
Definition set_alive (b : bool) (p : ThreadPool) : ThreadPool :=
  mkThreadPool (threads_count_ p) (tasks_pool_ p) (guardian_ p) (threads_pool_ p)
               b (running_tasks_count_ p) (caller_ p).
Definition set_running_tasks_count (z : Z) (p : ThreadPool) : ThreadPool :=
  mkThreadPool (threads_count_ p) (tasks_pool_ p) (guardian_ p) (threads_pool_ p)
               (alive_ p) z (caller_ p).
Definition set_caller (c : caller) (p : ThreadPool) : ThreadPool :=
  mkThreadPool (threads_count_ p) (tasks_pool_ p) (guardian_ p) (threads_pool_ p)
               (alive_ p) (running_tasks_count_ p) c.
Definition set_thread (i : nat) (c : spin_pc) (p : ThreadPool) : ThreadPool :=
  set_threads_pool (<[i := c]> (threads_pool_ p)) p.

(** ** Constructor and observers *)

(** [ThreadPool::ThreadPool(threads_count)]. *)
Definition ThreadPool_new (threads_count : nat) : ThreadPool :=
  mkThreadPool threads_count [] false [] false 0 Idle.

Definition status (p : ThreadPool) : STATUS := if alive_ p then UP else DOWN.
Definition is_pending (p : ThreadPool) : bool :=
  match tasks_pool_ p with [] => false | _ :: _ => true end.
Definition pending (p : ThreadPool) : Z := Z.of_nat (length (tasks_pool_ p)).
Definition is_running (p : ThreadPool) : bool :=
  negb (running_tasks_count_ p =? 0)%Z.
Definition running (p : ThreadPool) : Z := running_tasks_count_ p.

(** ** The condition variable

    The threads waiting on [thread_spin_cv_] are those at [Parked]. *)

Definition is_parked (c : spin_pc) : bool :=
  match c with Parked => true | _ => false end.

Definition wake (c : spin_pc) : spin_pc :=
  match c with Parked => Woken | _ => c end.

Definition notify_all (pool : list spin_pc) : list spin_pc := map wake pool.

(** Number of threads of [pool] whose statement satisfies [f]. *)
Fixpoint tally (f : spin_pc -> bool) (pool : list spin_pc) : nat :=
  match pool with
  | [] => 0
  | c :: rest => (if f c then 1 else 0) + tally f rest
  end.

(** Index in [pool] of the [k]-th waiting thread. *)
Fixpoint find_parked (k : nat) (pool : list spin_pc) : option nat :=
  match pool with
  | [] => None
  | c :: rest =>
      if is_parked c then
        match k with
        | 0 => Some 0
        | S k' => S <$> find_parked k' rest
        end
      else S <$> find_parked k rest
  end.

(** [notify_one()] unblocks one waiting thread, if there is any; which
    one is not specified, so the choice [k] is a parameter. *)
Definition notify_one (k : nat) (pool : list spin_pc) : list spin_pc :=
  match find_parked (k mod tally is_parked pool) pool with
  | Some j => <[j := Woken]> pool
  | None => pool
  end.

(** ** Lifecycle pieces *)

Definition has_returned (c : spin_pc) : bool :=
  match c with Returned => true | _ => false end.

(** [clean_up()]: joins every thread, then clears the vector.  [join()]
    blocks until the thread has returned from [spin()]; [None] is the
    blocked call. *)
Definition clean_up (p : ThreadPool) : option ThreadPool :=
  if forallb has_returned (threads_pool_ p)
  then Some (set_threads_pool [] p)
  else None.

(** The loop [for (i = 0; i < threads_count_; ++i) push_back(thread(spin))]. *)
Fixpoint spawn (n : nat) (pool : list spin_pc) : list spin_pc :=
  match n with
  | 0 => pool
  | S n' => spawn n' (pool ++ [AtWhile])
  end.

(** The tail of [start()]: [alive_ = true] and the spawning loop. *)
Definition start_threads (p : ThreadPool) : ThreadPool :=
  let p1 := set_alive true p in
  set_threads_pool (spawn (threads_count_ p1) (threads_pool_ p1)) p1.

(** The tail of [stop(sp)]:
    [if (sp == SYNC && !threads_pool_.empty()) clean_up();]
    the owner either enters [clean_up()] or returns. *)
Definition stop_tail (sp : STOP_POLICY) (pool : list spin_pc) : caller :=
  match sp, pool with
  | SYNC, _ :: _ => InStop_clean_up
  | _, _ => Idle
  end.

(** ** Steps *)

Inductive action :=
| Spin (i : nat)                 (* thread i of threads_pool_ runs one statement *)
| SpuriousWake (i : nat)         (* a waiting thread wakes without a notify *)
| CallStart
| CallStop (sp : STOP_POLICY)
| CallJoinAll
| CallWaitForIdle
| Resume                         (* the owner continues the call it is inside *)
| AddTask (t : Task) (k : nat)   (* addTask(t), by any thread *)
| Clear.                         (* clear(), by any thread *)

(** One statement of [spin()] by thread [i].  The three revisions differ
    in what follows the lock ([Rev0] goes straight to its [if], the others
    enter the wait) and in the test of the [if]. *)
Definition spin (v : revision) (i : nat) (p : ThreadPool) : option ThreadPool :=
  match threads_pool_ p !! i with
  | None => None
  | Some AtWhile =>
      Some (set_thread i (if alive_ p then AtLock else Returned) p)
  | Some AtLock =>
      if guardian_ p then None
      else Some (set_thread i (match v with Rev0 => AtIf | _ => AtPred end)
                            (set_guardian true p))
  | Some AtPred =>
      if negb (alive_ p) || is_pending p
      then Some (set_thread i AtIf p)
      else Some (set_thread i AtBlock p)
  | Some AtBlock =>
      Some (set_thread i Parked (set_guardian false p))
  | Some Parked => None
  | Some Woken =>
      if guardian_ p then None
      else Some (set_thread i AtPred (set_guardian true p))
  | Some AtIf =>
      let enter :=
        match v with
        | Rev0 => is_pending p          (* if(tasks_pool_.empty()) ... else *)
        | Rev1 => is_pending p          (* if(!tasks_pool_.empty()) *)
        | Rev2 => alive_ p              (* if(alive_) *)
        end in
      Some (set_thread i (if enter then AtPop else AtUnlock) p)
  | Some AtPop =>
      match tasks_pool_ p with
      | [] => None                      (* front() of an empty queue *)
      | task :: rest =>
          Some (set_thread i (AtInc task)
                  (set_guardian false (set_tasks_pool rest p)))
      end
  | Some (AtInc task) =>
      Some (set_thread i (AtRun task)
              (set_running_tasks_count (wrap (running_tasks_count_ p + 1)) p))
  | Some (AtRun task) =>
      Some (set_thread i AtDec p)
  | Some AtDec =>
      Some (set_thread i AtWhile
              (set_running_tasks_count (wrap (running_tasks_count_ p - 1)) p))
  | Some AtUnlock =>
      Some (set_thread i AtWhile (set_guardian false p))
  | Some Returned => None
  end.

(** [addTask(t)]: one critical section under [guardian_]. *)
Definition addTask (v : revision) (t : Task) (k : nat) (p : ThreadPool)
  : option ThreadPool :=
  if guardian_ p then None
  else
    let p1 := set_tasks_pool (tasks_pool_ p ++ [t]) p in
    match v with
    | Rev0 => Some p1
    | _ => if alive_ p1
           then Some (set_threads_pool (notify_one k (threads_pool_ p1)) p1)
           else Some p1
    end.

(** [clear()]: swaps the queue with an empty one under [guardian_]. *)
Definition clear (p : ThreadPool) : option ThreadPool :=
  if guardian_ p then None else Some (set_tasks_pool [] p).

(** The owner enters [start()]. *)
Definition start (p : ThreadPool) : option ThreadPool :=
  if alive_ p then Some p
  else
    match threads_pool_ p with
    | [] => Some (start_threads p)
    | _ :: _ => Some (set_caller InStart_clean_up p)
    end.

(** The owner enters [stop(sp)]. *)
Definition stop (v : revision) (sp : STOP_POLICY) (p : ThreadPool)
  : option ThreadPool :=
  match v with
  | Rev0 => Some (set_caller (stop_tail sp (threads_pool_ p)) (set_alive false p))
  | Rev1 => Some (set_caller (InStop_notify sp) (set_alive false p))
  | Rev2 => if guardian_ p then None
            else Some (set_caller (InStop_notify sp) (set_alive false p))
  end.

(** The owner enters [joinAll()]. *)
Definition joinAll (p : ThreadPool) : option ThreadPool :=
  match alive_ p, threads_pool_ p with
  | false, _ :: _ => Some (set_caller InJoinAll_clean_up p)
  | _, _ => Some p
  end.

(** The owner continues the call it is inside. *)
Definition resume (p : ThreadPool) : option ThreadPool :=
  match caller_ p with
  | Idle => None
  | InStop_notify sp =>
      Some (set_caller (stop_tail sp (threads_pool_ p))
              (set_threads_pool (notify_all (threads_pool_ p)) p))
  | InStop_clean_up | InJoinAll_clean_up =>
      set_caller Idle <$> clean_up p
  | InStart_clean_up =>
      (fun p' => set_caller Idle (start_threads p')) <$> clean_up p
  | InWaitForIdle_is_pending =>
      if guardian_ p then None
      else if is_pending p then Some p
      else Some (set_caller InWaitForIdle_is_running p)
  | InWaitForIdle_is_running =>
      if is_running p then Some (set_caller InWaitForIdle_is_pending p)
      else Some (set_caller Idle p)
  end.

Definition when_idle (p : ThreadPool) (r : option ThreadPool) : option ThreadPool :=
  match caller_ p with Idle => r | _ => None end.

Definition step (v : revision) (a : action) (p : ThreadPool) : option ThreadPool :=
  match a with
  | Spin i => spin v i p
  | SpuriousWake i =>
      match v, threads_pool_ p !! i with
      | Rev0, _ => None
      | _, Some Parked => Some (set_thread i Woken p)
      | _, _ => None
      end
  | CallStart => when_idle p (start p)
  | CallStop sp => when_idle p (stop v sp p)
  | CallJoinAll => when_idle p (joinAll p)
  | CallWaitForIdle => when_idle p (Some (set_caller InWaitForIdle_is_pending p))
  | Resume => resume p
  | AddTask t k => addTask v t k p
  | Clear => clear p
  end.

(** A schedule is a list of actions, executed from left to right. *)
Fixpoint exec (v : revision) (acts : list action) (p : ThreadPool)
  : option ThreadPool :=
  match acts with
  | [] => Some p
  | a :: rest =>
      match step v a p with
      | Some p' => exec v rest p'
      | None => None
      end
  end.

Inductive reachable (v : revision) (n : nat) : ThreadPool -> Prop :=
| reachable_new : reachable v n (ThreadPool_new n)
| reachable_step p a p' :
    reachable v n p -> step v a p = Some p' -> reachable v n p'.

(** ** Classification of worker statements *)

Definition b2n (b : bool) : nat := if b then 1 else 0.

(** The statements at which the thread owns [guardian_]. *)
Definition holds_lock (c : spin_pc) : bool :=
  match c with
  | AtPred | AtBlock | AtIf | AtPop | AtUnlock => true
  | _ => false
  end.

(** The statements between the increment and the decrement of
    [running_tasks_count_]. *)
Definition counted (c : spin_pc) : bool :=
  match c with AtRun _ | AtDec => true | _ => false end.

(** Dequeued, not yet counted. *)
Definition uncounted (c : spin_pc) : bool :=
  match c with AtInc _ => true | _ => false end.

(** Counted, and [run()] has returned. *)
Definition finishing (c : spin_pc) : bool :=
  match c with AtDec => true | _ => false end.

Definition at_block (c : spin_pc) : bool :=
  match c with AtBlock => true | _ => false end.
Definition at_pop (c : spin_pc) : bool :=
  match c with AtPop => true | _ => false end.
Definition at_if (c : spin_pc) : bool :=
  match c with AtIf => true | _ => false end.

(** The statements inside [thread_spin_cv_.wait]. *)
Definition in_wait (c : spin_pc) : bool :=
  match c with AtPred | AtBlock | Parked | Woken => true | _ => false end.

(** The task a worker has dequeued and whose [run()] has not returned. *)
Definition in_flight (c : spin_pc) : list Task :=
  match c with AtInc t | AtRun t => [t] | _ => [] end.

Definition claimed_tasks (pool : list spin_pc) : list Task :=
  concat (map in_flight pool).

(** The calls during which the owner keeps [alive_] false. *)
Definition stopping (c : caller) : bool :=
  match c with
  | InStop_notify _ | InStop_clean_up | InStart_clean_up | InJoinAll_clean_up => true
  | _ => false
  end.

Definition notify_pending (c : caller) : bool :=
  match c with InStop_notify _ => true | _ => false end.

(** ** Invariants *)

(** Facts of every reachable pool, in every revision. *)
Record consistent (n : nat) (p : ThreadPool) : Prop := {
  cons_count : threads_count_ p = n;
  cons_threads : threads_pool_ p = [] \/ length (threads_pool_ p) = n;
  cons_lock : tally holds_lock (threads_pool_ p) = b2n (guardian_ p);
  cons_running :
    running_tasks_count_ p = Z.of_nat (tally counted (threads_pool_ p));
  cons_caller : stopping (caller_ p) = true -> alive_ p = false
}.

(** Facts of the reachable pools of [Rev2], where [alive_] is cleared
    under [guardian_]. *)
Record guarded (p : ThreadPool) : Prop := {
  down_no_block : alive_ p = false -> tally at_block (threads_pool_ p) = 0;
  down_no_pop : alive_ p = false -> tally at_pop (threads_pool_ p) = 0;
  down_no_parked :
    alive_ p = false -> notify_pending (caller_ p) = false ->
    tally is_parked (threads_pool_ p) = 0;
  if_nonempty :
    0 < tally at_if (threads_pool_ p) -> alive_ p = true -> is_pending p = true;
  pop_nonempty :
    0 < tally at_pop (threads_pool_ p) -> is_pending p = true
}.

(** ** Bookkeeping along a schedule *)

(** What a schedule has done to tasks, in order of occurrence. *)
Record ledger := mkLedger {
  submitted : list Task;     (* tasks passed to addTask *)
  discarded : list Task;     (* tasks removed from the queue by clear *)
  dequeued : list Task;      (* tasks taken from the queue by a worker *)
  finished : list Task;      (* tasks whose run() has returned *)
  retained : list Task       (* submitted, with what each clear removed taken
                                off its tail *)
}.

Definition no_entries : ledger := mkLedger [] [] [] [] [].

(** The task that action [a], taken in pool [p], dequeues: the statement
    [task = tasks_pool_.front(); tasks_pool_.pop();] of a worker. *)
Definition claims (a : action) (p : ThreadPool) : option Task :=
  match a with
  | Spin i =>
      match threads_pool_ p !! i, tasks_pool_ p with
      | Some AtPop, t :: _ => Some t
      | _, _ => None
      end
  | _ => None
  end.

(** The task whose [run()] action [a] executes. *)
Definition completes (a : action) (p : ThreadPool) : option Task :=
  match a with
  | Spin i =>
      match threads_pool_ p !! i with
      | Some (AtRun t) => Some t
      | _ => None
      end
  | _ => None
  end.

(** The entry that action [a], taken in pool [p], adds to the ledger. *)
Definition record_action (a : action) (p : ThreadPool) (l : ledger) : ledger :=
  match a with
  | AddTask t _ =>
      mkLedger (submitted l ++ [t]) (discarded l) (dequeued l) (finished l)
               (retained l ++ [t])
  | Clear =>
      mkLedger (submitted l) (discarded l ++ tasks_pool_ p) (dequeued l)
               (finished l)
               (take (length (retained l) - length (tasks_pool_ p)) (retained l))
  | _ =>
      mkLedger (submitted l) (discarded l)
               (dequeued l ++ option_list (claims a p))
               (finished l ++ option_list (completes a p))
               (retained l)
  end.

Fixpoint run (v : revision) (acts : list action) (p : ThreadPool) (l : ledger)
  : option (ThreadPool * ledger) :=
  match acts with
  | [] => Some (p, l)
  | a :: rest =>
      match step v a p with
      | Some p' => run v rest p' (record_action a p l)
      | None => None
      end
  end.

Definition is_add_task (a : action) : bool :=
  match a with AddTask _ _ => true | _ => false end.

Definition is_resume (a : action) : bool :=
  match a with Resume => true | _ => false end.

Definition is_clear (a : action) : bool :=
  match a with Clear => true | _ => false end.

(** Number of statements a worker of [Rev2] has yet to execute before it
    returns from [spin()], once [alive_] is false. *)
Definition steps_left (c : spin_pc) : nat :=
  match c with
  | Returned => 0
  | AtWhile => 1
  | AtUnlock | AtDec => 2
  | AtIf | AtRun _ => 3
  | AtPred | AtInc _ => 4
  | AtLock | Woken => 5
  | AtBlock | AtPop | Parked => 0
  end.

Fixpoint work_left (pool : list spin_pc) : nat :=
  match pool with
  | [] => 0
  | c :: rest => steps_left c + work_left rest
  end.

Definition is_spin (a : action) : bool :=
  match a with Spin _ => true | _ => false end.

(** The actions of the threads other than the owner: worker statements,
    spurious wake-ups, [addTask] and [clear]. *)
Definition background (a : action) : bool :=
  match a with
  | Spin _ | SpuriousWake _ | AddTask _ _ | Clear => true
  | _ => false
  end.

Definition is_call_start (a : action) : bool :=
  match a with CallStart => true | _ => false end.

(** The owner's steps through [stop(sp)] up to its test of
    [sp == SYNC && !threads_pool_.empty()]: the flag write, and in the
    revisions with a condition variable the [notify_all()]. *)
Definition stop_calls (v : revision) (sp : STOP_POLICY) : list action :=
  match v with
  | Rev0 => [CallStop sp]
  | _ => [CallStop sp; Resume]
  end.


(** The statements from which a worker can still reach a dequeue without
    reading [alive_] at [while(alive_)] first. *)
Definition before_dequeue (c : spin_pc) : bool :=
  match c with
  | AtLock | AtPred | AtBlock | Parked | Woken | AtIf | AtPop => true
  | _ => false
  end.

(** Number of statements a worker of [Rev0] has yet to execute, at most,
    before it returns from [spin()], once [alive_] is false. *)
Definition polls_left (c : spin_pc) : nat :=
  match c with
  | AtWhile => 1
  | AtUnlock | AtDec => 2
  | AtRun _ => 3
  | AtInc _ => 4
  | AtPop => 5
  | AtIf => 6
  | AtLock => 7
  | _ => 0
  end.

Fixpoint polling_left (pool : list spin_pc) : nat :=
  match pool with
  | [] => 0
  | c :: rest => polls_left c + polling_left rest
  end.


(** The actions that issue no wake-up by themselves: everything but a
    spurious wake-up and a further [stop()]. *)
Definition quiet (a : action) : bool :=
  match a with SpuriousWake _ | CallStop _ => false | _ => true end.

(** Number of occurrences of task [t] in a list of tasks. *)
Definition occ (t : Task) (l : list Task) : nat := count_occ Nat.eq_dec l t.

(** The thread has dequeued task [t] and its [run()] has not returned. *)
Definition flying (t : Task) (c : spin_pc) : bool :=
  match c with
  | AtInc u | AtRun u => bool_decide (u = t)
  | _ => false
  end.

Definition at_run (c : spin_pc) : bool :=
  match c with AtRun _ => true | _ => false end.


(** Conservation of tasks: what was submitted, or was in the pool at the
    start ([base]), is finished, discarded, in flight or queued. *)
Definition balanced (t : Task) (base : list Task) (p : ThreadPool) (l : ledger) : Prop :=
  occ t (submitted l) + occ t base =
  occ t (finished l) + occ t (discarded l)
  + tally (flying t) (threads_pool_ p) + occ t (tasks_pool_ p).

(** The same for the queue alone: what was submitted, or was queued at the
    start, has been dequeued, discarded or is still queued. *)
Definition queue_balanced (t : Task) (base : list Task) (p : ThreadPool) (l : ledger) : Prop :=
  occ t (submitted l) + occ t base =
  occ t (dequeued l) + occ t (discarded l) + occ t (tasks_pool_ p).

Definition fifo (p : ThreadPool) (l : ledger) : Prop :=
  retained l = dequeued l ++ tasks_pool_ p.

(** * Properties *)

(** ** Counting threads *)

Lemma tally_app f l1 l2 : tally f (l1 ++ l2) = tally f l1 + tally f l2.
Proof. induction l1 as [|c l1 IH]; simpl; [done | rewrite IH; lia]. Qed.

Lemma tally_insert f (l : list spin_pc) i c c' :
  l !! i = Some c ->
  tally f (<[i := c']> l) + b2n (f c) = tally f l + b2n (f c').
Proof.
  revert i. induction l as [|x l IH]; intros [|i] Hi; simpl in *; try done.
  - injection Hi as ->. unfold b2n. destruct (f c), (f c'); lia.
  - specialize (IH i Hi). lia.
Qed.

Lemma tally_le f l : tally f l <= length l.
Proof. induction l as [|c l IH]; simpl; [lia | destruct (f c); lia]. Qed.

Lemma tally_lookup f (l : list spin_pc) i c :
  l !! i = Some c -> f c = true -> 0 < tally f l.
Proof.
  revert i. induction l as [|x l IH]; intros [|i] Hi Hf; simpl in *; try done.
  - injection Hi as ->. rewrite Hf. lia.
  - specialize (IH i Hi Hf). lia.
Qed.

Lemma tally_zero_lookup f (l : list spin_pc) i c :
  tally f l = 0 -> l !! i = Some c -> f c = false.
Proof.
  intros Hz Hi. destruct (f c) eqn:Hf; [|done].
  pose proof (tally_lookup f l i c Hi Hf). lia.
Qed.

Lemma tally_all_returned f l :
  f Returned = false -> forallb has_returned l = true -> tally f l = 0.
Proof.
  intros Hf. induction l as [|c l IH]; simpl; [done |].
  destruct c; simpl; try done. rewrite Hf. auto.
Qed.

Lemma tally_spawn f n l :
  f AtWhile = false -> tally f (spawn n l) = tally f l.
Proof.
  intros Hf. revert l. induction n as [|n IH]; intros l; simpl; [done |].
  rewrite IH, tally_app. simpl. rewrite Hf. lia.
Qed.

Lemma length_spawn n l : length (spawn n l) = length l + n.
Proof.
  revert l. induction n as [|n IH]; intros l; simpl; [lia |].
  rewrite IH, length_app. simpl. lia.
Qed.

Lemma spawn_repeat n l : spawn n l = l ++ repeat AtWhile n.
Proof.
  revert l. induction n as [|n IH]; intros l; simpl.
  - by rewrite app_nil_r.
  - by rewrite IH, <- app_assoc.
Qed.

(** ** The condition variable *)

Lemma tally_notify_all f l :
  f Parked = f Woken -> tally f (notify_all l) = tally f l.
Proof.
  intros Hf. induction l as [|c l IH]; simpl; [done |].
  rewrite IH. destruct c; simpl; try done. by rewrite Hf.
Qed.

Lemma tally_parked_notify_all l : tally is_parked (notify_all l) = 0.
Proof. induction l as [|c l IH]; simpl; [done |]. rewrite IH. by destruct c. Qed.

Lemma length_notify_all l : length (notify_all l) = length l.
Proof. apply length_map. Qed.

Lemma find_parked_Some k l j : find_parked k l = Some j -> l !! j = Some Parked.
Proof.
  revert k j. induction l as [|c l IH]; intros k j; simpl; [done |].
  destruct c; simpl;
    try (destruct (find_parked k l) eqn:E; simpl; [|done];
         intros [= <-]; simpl; eauto).
  destruct k as [|k]; [by intros [= <-] |].
  destruct (find_parked k l) eqn:E; simpl; [|done].
  intros [= <-]; simpl; eauto.
Qed.

Lemma find_parked_lt k l :
  k < tally is_parked l -> is_Some (find_parked k l).
Proof.
  revert k. induction l as [|c l IH]; intros k; simpl; [lia |].
  destruct (is_parked c) eqn:E; simpl.
  - destruct k as [|k]; [eauto |]. intros Hk.
    destruct (IH k) as [j ->]; [lia | simpl; eauto].
  - intros Hk. destruct (IH k) as [j ->]; [lia | simpl; eauto].
Qed.

(** [notify_one] leaves the pool alone when nobody waits, and otherwise
    moves exactly one waiting thread to [Woken]. *)
Lemma notify_one_cases k l :
  (tally is_parked l = 0 /\ notify_one k l = l) \/
  (exists j, l !! j = Some Parked /\ notify_one k l = <[j := Woken]> l).
Proof.
  unfold notify_one.
  destruct (tally is_parked l) as [|n] eqn:En.
  - left. split; [done |].
    destruct (find_parked _ l) as [j|] eqn:E; [|done].
    apply find_parked_Some in E.
    pose proof (tally_insert is_parked l j Parked Woken E) as H. simpl in H. lia.
  - right. destruct (find_parked_lt (k mod S n) l) as [j Hj].
    + rewrite En. apply Nat.mod_upper_bound. lia.
    + rewrite Hj. exists j. split; [|done]. by eapply find_parked_Some.
Qed.

(** ** Case analysis of a step *)

Ltac split_step H :=
  repeat first
    [ discriminate H
    | match type of H with
      | context [threads_pool_ ?p !! ?i] =>
          let c := fresh "c" in let Hi := fresh "Hi" in
          destruct (threads_pool_ p !! i) as [c|] eqn:Hi; [destruct c|]
      | context [match caller_ ?p with _ => _ end] =>
          destruct (caller_ p) eqn:?
      | context [if guardian_ ?p then _ else _] =>
          destruct (guardian_ p) eqn:?
      | context [if forallb ?f ?l then _ else _] =>
          destruct (forallb f l) eqn:?
      | context [match ?v with Rev0 => _ | Rev1 => _ | Rev2 => _ end] =>
          destruct v
      | context [alive_ ?p] =>
          match type of H with
          | context [if alive_ p then _ else _] => destruct (alive_ p) eqn:?
          | context [negb (alive_ p)] => destruct (alive_ p) eqn:?
          end
      | context [match tasks_pool_ ?p with _ => _ end] =>
          destruct (tasks_pool_ p) eqn:?
      | context [match threads_pool_ ?p with _ => _ end] =>
          destruct (threads_pool_ p) eqn:?
      | context [if is_running ?p then _ else _] =>
          destruct (is_running p) eqn:?
      end; cbn in H ].

Ltac step_cases H :=
  match type of H with
  | step ?v ?a ?p = Some ?p' =>
      destruct a; cbn in H;
      unfold spin, addTask, clear, when_idle, start, stop, joinAll, resume,
             clean_up, is_pending in H;
      cbn in H; split_step H;
      try (injection H as <-)
  end.

Ltac tally_facts :=
  repeat match goal with
  | Hi : ?l !! ?i = Some ?c |- context [tally ?f (<[?i := ?c']> ?l)] =>
      lazymatch goal with
      | _ : tally f (<[i := c']> l) + _ = _ |- _ => fail
      | _ => pose proof (tally_insert f l i c c' Hi)
      end
  | Hi : ?l !! ?i = Some ?c, H : context [tally ?f (<[?i := ?c']> ?l)] |- _ =>
      lazymatch goal with
      | _ : tally f (<[i := c']> l) + _ = _ |- _ => fail
      | _ => pose proof (tally_insert f l i c c' Hi)
      end
  end.

Ltac notify_one_split :=
  match goal with
  | |- context [notify_one ?k ?l] =>
      let j := fresh "j" in let Hj := fresh "Hj" in let Hz := fresh "Hz" in
      let E := fresh "E" in
      destruct (notify_one_cases k l) as [[Hz E] | (j & Hj & E)];
      rewrite E in *; clear E
  end.

Ltac fields :=
  cbn [threads_count_ tasks_pool_ guardian_ threads_pool_ alive_
       running_tasks_count_ caller_ set_thread set_threads_pool set_tasks_pool
       set_guardian set_alive set_running_tasks_count set_caller
       start_threads] in *.

Ltac use_eqs :=
  repeat match goal with
  | E : caller_ ?p = _ |- context [caller_ ?p] => rewrite E
  | E : alive_ ?p = _ |- context [alive_ ?p] => rewrite E
  | E : guardian_ ?p = _ |- context [guardian_ ?p] => rewrite E
  | E : threads_pool_ ?p = _ |- context [threads_pool_ ?p] => rewrite E
  | E : tasks_pool_ ?p = _ |- context [tasks_pool_ ?p] => rewrite E
  | E : ?l !! ?i = _ |- context [?l !! ?i] => rewrite E
  end.

Lemma wrap_small z : (0 <= z < SIZE_MOD)%Z -> wrap z = z.
Proof. intros. unfold wrap. by apply Z.mod_small. Qed.

Lemma exec_app v acts1 acts2 p :
  exec v (acts1 ++ acts2) p =
  match exec v acts1 p with Some p' => exec v acts2 p' | None => None end.
Proof.
  revert p. induction acts1 as [|a acts1 IH]; intros p; simpl; [done |].
  destruct (step v a p); [apply IH | done].
Qed.

Lemma exec_reachable_from v n acts p p' :
  reachable v n p -> exec v acts p = Some p' -> reachable v n p'.
Proof.
  revert p. induction acts as [|a acts IH]; intros p Hp; simpl.
  - by intros [= <-].
  - destruct (step v a p) as [p1|] eqn:E; [|done].
    apply IH. by eapply reachable_step.
Qed.

Lemma exec_reachable v n acts p :
  exec v acts (ThreadPool_new n) = Some p -> reachable v n p.
Proof. apply exec_reachable_from. constructor. Qed.

Lemma reachable_exec v n p :
  reachable v n p -> exists acts, exec v acts (ThreadPool_new n) = Some p.
Proof.
  induction 1 as [|p a p' _ [acts IH] Hstep].
  - by exists [].
  - exists (acts ++ [a]). rewrite exec_app, IH. simpl. by rewrite Hstep.
Qed.

(** ** Consistency of every reachable pool *)

Section Consistency.
Variable v : revision.
Variable n : nat.
Hypothesis n_size_t : (Z.of_nat n < SIZE_MOD)%Z.

Lemma consistent_new : consistent n (ThreadPool_new n).
Proof. split; cbn; auto. Qed.

Lemma length_threads p i c :
  threads_pool_ p = [] \/ length (threads_pool_ p) = n ->
  threads_pool_ p !! i = Some c ->
  length (threads_pool_ p) = n.
Proof. intros [E|E] Hi; [by rewrite E in Hi | done]. Qed.

Lemma consistent_step a p p' :
  consistent n p -> step v a p = Some p' -> consistent n p'.
Proof using n_size_t.
  intros [Hn Hlen Hlock Hrun Hcall] H.
  step_cases H.
  all: try notify_one_split.
  all: split; fields; use_eqs; cbn [stopping] in *.
  all: try assumption.
  all: try congruence.
  all: try (intros; try discriminate; auto; fail).
  all: try (right; rewrite length_insert; eapply length_threads; eauto; fail).
  all: try (rewrite ?tally_spawn, ?tally_notify_all by done;
            rewrite ?length_spawn, ?length_notify_all; cbn [tally length];
            first [assumption | right; lia | lia | left; done]).
  all: try (erewrite ?tally_all_returned in * by (done || eassumption);
            cbn [tally Z.of_nat]; first [assumption | lia ]).
  all: try (tally_facts; destruct (guardian_ p) eqn:?;
            cbn [b2n holds_lock counted] in *; lia).
  all: try (match goal with |- context [tally counted ?l] =>
              pose proof (tally_le counted l) end;
            assert (length (threads_pool_ p) = n)
              by (eapply length_threads; eauto);
            tally_facts; rewrite ?length_insert in *;
            cbn [b2n holds_lock counted] in *;
            rewrite wrap_small; lia).
  - destruct Hlen as [E|E];
      [left; by rewrite E | right; by rewrite length_notify_all].
  - rewrite tally_spawn by done. cbn.
    erewrite tally_all_returned in Hlock by (done || eassumption). done.
  - rewrite tally_spawn by done. cbn.
    erewrite tally_all_returned in Hrun by (done || eassumption). done.
Qed.

Lemma reachable_consistent p : reachable v n p -> consistent n p.
Proof using n_size_t.
  induction 1; [apply consistent_new | eauto using consistent_step].
Qed.
End Consistency.

(** ** The flag discipline of [Rev2] *)

Lemma tally_holds l :
  tally at_block l + tally at_pop l + tally at_if l <= tally holds_lock l.
Proof. induction l as [|c l IH]; simpl; [lia | destruct c; simpl; lia]. Qed.

Ltac premises :=
  repeat match goal with
  | Hx : ?P -> _ |- _ =>
      let HP := fresh in
      assert (HP : P) by (first [assumption | reflexivity | lia | congruence]);
      specialize (Hx HP); clear HP
  end.

(** What the statement of one thread says about the tallies. *)
Ltac thread_facts :=
  match goal with
  | Hi : threads_pool_ ?p !! ?i = Some ?c |- _ =>
      pose proof (tally_insert holds_lock _ _ _ Returned Hi);
      pose proof (tally_insert at_block _ _ _ Returned Hi);
      pose proof (tally_insert at_pop _ _ _ Returned Hi);
      pose proof (tally_insert at_if _ _ _ Returned Hi);
      pose proof (tally_insert is_parked _ _ _ Returned Hi)
  end.

Ltac tally_simpl :=
  rewrite ?tally_spawn, ?tally_notify_all, ?tally_parked_notify_all in * by done;
  cbn [tally b2n holds_lock counted uncounted finishing at_block at_pop at_if
       is_parked in_wait] in *.

Section Guarded.
Variable n : nat.
Hypothesis n_size_t : (Z.of_nat n < SIZE_MOD)%Z.

Lemma guarded_new : guarded (ThreadPool_new n).
Proof. split; cbn; intros; (done || lia). Qed.

Lemma guarded_step a p p' :
  consistent n p -> guarded p -> step Rev2 a p = Some p' -> guarded p'.
Proof using n_size_t.
  intros [Hn Hlen Hlock Hrun Hcall] [Hblock Hpop Hpark Hif Hnonempty] H.
  pose proof (tally_holds (threads_pool_ p)) as Hholds.
  unfold is_pending in *.
  step_cases H.
  all: try notify_one_split.
  all: split; fields; use_eqs; unfold is_pending in *; fields; use_eqs;
       cbn [stopping notify_pending] in *.
  all: try assumption.
  all: try (intros; congruence).
  all: try (intros; tally_facts; tally_simpl; premises;
            first [lia | congruence | done]).
  all: intros; tally_facts; thread_facts; destruct (guardian_ p);
    tally_simpl; premises; first [lia | congruence | done].
Qed.

Lemma reachable_guarded p : reachable Rev2 n p -> guarded p.
Proof using n_size_t.
  induction 1 as [|p a p' Hp IH Hstep]; [apply guarded_new |].
  eapply guarded_step; eauto. by eapply reachable_consistent.
Qed.
End Guarded.

(** What the comment after the wait of [Rev2] asserts: with the lock
    re-acquired, if [alive_] is true the queue is not empty, so [front()]
    is defined when the worker reaches it. *)
Lemma Rev2_front_defined n p i :
  (Z.of_nat n < SIZE_MOD)%Z ->
  reachable Rev2 n p ->
  (threads_pool_ p !! i = Some AtIf -> alive_ p = true -> tasks_pool_ p <> []) /\
  (threads_pool_ p !! i = Some AtPop -> tasks_pool_ p <> []).
Proof.
  intros Hn Hp.
  destruct (reachable_guarded n Hn p Hp) as [_ _ _ Hif Hpop].
  unfold is_pending in *.
  split; intros Hi.
  - intros Ha. pose proof (tally_lookup at_if _ i _ Hi eq_refl) as Hpos.
    specialize (Hif Hpos Ha). by destruct (tasks_pool_ p).
  - pose proof (tally_lookup at_pop _ i _ Hi eq_refl) as Hpos.
    specialize (Hpop Hpos). by destruct (tasks_pool_ p).
Qed.

(** ** [Rev0]: nobody ever waits *)

Lemma polling_step a p p' :
  tally in_wait (threads_pool_ p) = 0 -> step Rev0 a p = Some p' ->
  tally in_wait (threads_pool_ p') = 0.
Proof.
  intros Hw H. step_cases H; fields; use_eqs; try assumption.
  all: try (tally_facts; tally_simpl; lia).
  all: by rewrite ?tally_spawn.
Qed.

Lemma reachable_polling n p :
  reachable Rev0 n p -> tally in_wait (threads_pool_ p) = 0.
Proof. induction 1; [done | eauto using polling_step]. Qed.

Lemma tally_wait_parked l :
  tally is_parked l + tally at_block l <= tally in_wait l.
Proof. induction l as [|c l IH]; simpl; [lia | destruct c; simpl; lia]. Qed.

(** ** The ledger *)

Lemma occ_app t l1 l2 : occ t (l1 ++ l2) = occ t l1 + occ t l2.
Proof. apply count_occ_app. Qed.

Lemma occ_claimed_tasks t pool :
  occ t (claimed_tasks pool) = tally (flying t) pool.
Proof.
  unfold claimed_tasks, occ.
  induction pool as [|c pool IH]; simpl; [done |].
  rewrite count_occ_app. f_equal; [| exact IH].
  destruct c; simpl; try done; repeat case_bool_decide;
    destruct (Nat.eq_dec _ _); congruence.
Qed.

Lemma length_claimed_tasks pool :
  length (claimed_tasks pool) = tally uncounted pool + tally at_run pool.
Proof.
  unfold claimed_tasks.
  induction pool as [|c pool IH]; simpl; [done |].
  rewrite length_app, IH. destruct c; simpl; lia.
Qed.

Lemma tally_counted pool :
  tally counted pool = tally at_run pool + tally finishing pool.
Proof. induction pool as [|c pool IH]; simpl; [done | destruct c; simpl; lia]. Qed.

Lemma run_app v acts1 acts2 p l :
  run v (acts1 ++ acts2) p l =
  match run v acts1 p l with
  | Some (p', l') => run v acts2 p' l'
  | None => None
  end.
Proof.
  revert p l. induction acts1 as [|a acts1 IH]; intros p l; simpl; [done |].
  destruct (step v a p); [apply IH | done].
Qed.

Lemma run_exec v acts p l p' l' :
  run v acts p l = Some (p', l') -> exec v acts p = Some p'.
Proof.
  revert p l. induction acts as [|a acts IH]; intros p l; simpl.
  - by intros [= <- _].
  - destruct (step v a p); [apply IH | done].
Qed.

Lemma exec_run v acts p l p' :
  exec v acts p = Some p' -> exists l', run v acts p l = Some (p', l').
Proof.
  revert p l. induction acts as [|a acts IH]; intros p l; simpl.
  - intros [= <-]. eauto.
  - destruct (step v a p); [apply IH | done].
Qed.

(** Whatever holds of a pool and a ledger and is kept by every step holds
    after every schedule. *)
Lemma run_invariant v (I : ThreadPool -> ledger -> Prop) :
  (forall a p l p', I p l -> step v a p = Some p' -> I p' (record_action a p l)) ->
  forall acts p l p' l',
    I p l -> run v acts p l = Some (p', l') -> I p' l'.
Proof.
  intros Hstep acts. induction acts as [|a acts IH]; intros p l p' l' HI; simpl.
  - by intros [= <- <-].
  - destruct (step v a p) as [p1|] eqn:E; [|done]. eauto.
Qed.

Ltac ledger_fields :=
  cbn [record_action claims completes submitted discarded dequeued finished
       retained option_list] in *.

Lemma balanced_step v t base a p l p' :
  balanced t base p l -> step v a p = Some p' ->
  balanced t base p' (record_action a p l).
Proof.
  unfold balanced. intros Hb H.
  step_cases H; ledger_fields; fields; use_eqs; simpl option_list.
  all: try notify_one_split.
  all: rewrite ?app_nil_r, ?occ_app, ?tally_spawn, ?tally_notify_all in * by done.
  all: try assumption.
  all: try (erewrite (tally_all_returned (flying t)) in Hb by (done || eassumption);
            cbn [tally]; lia).
  all: tally_facts; cbn [flying b2n tally] in *; unfold occ in *;
       cbn [count_occ] in *;
       repeat case_bool_decide; repeat destruct (Nat.eq_dec _ _);
       cbn [b2n] in *; try congruence; lia.
Qed.

Lemma queue_balanced_step v t base a p l p' :
  queue_balanced t base p l -> step v a p = Some p' ->
  queue_balanced t base p' (record_action a p l).
Proof.
  unfold queue_balanced. intros Hb H.
  step_cases H; ledger_fields; fields; use_eqs; simpl option_list.
  all: rewrite ?app_nil_r, ?occ_app in *.
  all: try assumption.
  all: unfold occ in *; cbn [count_occ] in *;
       repeat destruct (Nat.eq_dec _ _); try congruence; lia.
Qed.

Lemma fifo_step v a p l p' :
  fifo p l -> step v a p = Some p' -> fifo p' (record_action a p l).
Proof.
  unfold fifo. intros Hb H.
  step_cases H; ledger_fields; fields; use_eqs; simpl option_list.
  all: rewrite ?app_nil_r in *.
  all: try assumption.
  all: try (rewrite Hb, <- ?app_assoc; reflexivity).
  rewrite Hb, length_app.
  replace (length (dequeued l) + length (tasks_pool_ p) - length (tasks_pool_ p))
    with (length (dequeued l)) by lia.
  by rewrite take_app_length.
Qed.

(** * The pool against its specification *)

(** ** Stop synchronisation *)


(** ** Submission *)

(** [C6] [addTask(t)] runs under the queue lock (it waits while a worker
    holds [guardian_]) and, in every pool state, up or down, appends [t] to
    the tail of the queue: [pending()] grows by one and nothing else
    changes, except that when the pool is up the revisions with a
    condition variable unblock exactly one of the waiting workers (none
    when nobody waits).  In [Rev0] workers poll, and nobody is woken. *)
Theorem addTask_effect v t k p :
  (guardian_ p = true -> step v (AddTask t k) p = None) /\
  (guardian_ p = false ->
   exists p',
     step v (AddTask t k) p = Some p' /\
     tasks_pool_ p' = tasks_pool_ p ++ [t] /\
     pending p' = (pending p + 1)%Z /\
     threads_count_ p' = threads_count_ p /\
     guardian_ p' = false /\
     alive_ p' = alive_ p /\
     running_tasks_count_ p' = running_tasks_count_ p /\
     caller_ p' = caller_ p /\
     (alive_ p = false -> threads_pool_ p' = threads_pool_ p) /\
     (alive_ p = true ->
      match v with
      | Rev0 => threads_pool_ p' = threads_pool_ p
      | _ =>
          (tally is_parked (threads_pool_ p) = 0 /\
           threads_pool_ p' = threads_pool_ p) \/
          (exists j, threads_pool_ p !! j = Some Parked /\
                     threads_pool_ p' = <[j := Woken]> (threads_pool_ p) /\
                     tally is_parked (threads_pool_ p') + 1 =
                     tally is_parked (threads_pool_ p))
      end)).
Proof.
  split; intros Hg; cbn; unfold addTask; rewrite Hg; [done |].
  assert (Hpending : forall q : list Task,
             Z.of_nat (length (q ++ [t])) = (Z.of_nat (length q) + 1)%Z).
  { intros q. rewrite length_app. simpl. lia. }
  assert (Hwake :
    forall pool,
      (tally is_parked pool = 0 /\ notify_one k pool = pool) \/
      (exists j, pool !! j = Some Parked /\
                 notify_one k pool = <[j := Woken]> pool /\
                 tally is_parked (notify_one k pool) + 1 = tally is_parked pool)).
  { intros pool. destruct (notify_one_cases k pool) as [?|(j & Hj & E)]; [by left |].
    right. exists j. rewrite E. repeat split; try done.
    pose proof (tally_insert is_parked pool j Parked Woken Hj). simpl in *. lia. }
  destruct v; fields.
  - eexists. split; [done |]. unfold pending. fields. rewrite Hpending.
    repeat split; done.
  - destruct (alive_ p) eqn:Ha; eexists; (split; [done |]); unfold pending;
      fields; rewrite Hpending, ?Ha; repeat split; done.
  - destruct (alive_ p) eqn:Ha; eexists; (split; [done |]); unfold pending;
      fields; rewrite Hpending, ?Ha; repeat split; done.
Qed.

(** ** Start *)


(** ** Order of service *)

Lemma queue_step v a p p' :
  step v a p = Some p' ->
  match a with
  | AddTask t _ => tasks_pool_ p' = tasks_pool_ p ++ [t]
  | Clear => tasks_pool_ p' = []
  | _ =>
      match claims a p with
      | Some t => tasks_pool_ p = t :: tasks_pool_ p'
      | None => tasks_pool_ p' = tasks_pool_ p
      end
  end.
Proof.
  intros H. step_cases H; ledger_fields; fields; use_eqs; done.
Qed.


Lemma run_fifo v acts p l p' l' :
  fifo p l -> run v acts p l = Some (p', l') -> fifo p' l'.
Proof. apply (run_invariant v fifo). intros. by eapply fifo_step. Qed.


(** ** Discarding *)

Lemma run_balanced v t base acts p l p' l' :
  balanced t base p l -> run v acts p l = Some (p', l') -> balanced t base p' l'.
Proof.
  apply (run_invariant v (balanced t base)). intros. by eapply balanced_step.
Qed.

Lemma run_queue_balanced v t base acts p l p' l' :
  queue_balanced t base p l -> run v acts p l = Some (p', l') ->
  queue_balanced t base p' l'.
Proof.
  apply (run_invariant v (queue_balanced t base)).
  intros. by eapply queue_balanced_step.
Qed.

(** [C9] [clear()] runs under the queue lock and replaces the queue by an
    empty one in one step: [pending()] is zero afterwards and nothing else
    changes, neither the threads and the tasks they hold, nor the running
    count, nor [alive_].  Every task dequeued after the [clear()] was
    submitted after it, and every [run()] that completes after it is of a
    task that a worker held at the [clear()] or that was submitted after
    it: occurrence by occurrence, what [clear()] removed is never executed.
    The workers that held a task go on and complete it. *)
Theorem clear_effect v p :
  (guardian_ p = true -> step v Clear p = None) /\
  (guardian_ p = false ->
   step v Clear p = Some (set_tasks_pool [] p) /\
   pending (set_tasks_pool [] p) = 0%Z /\
   threads_pool_ (set_tasks_pool [] p) = threads_pool_ p /\
   running (set_tasks_pool [] p) = running p /\
   alive_ (set_tasks_pool [] p) = alive_ p /\
   caller_ (set_tasks_pool [] p) = caller_ p /\
   (forall acts p' l,
      run v acts (set_tasks_pool [] p) no_entries = Some (p', l) ->
      forall t,
        occ t (dequeued l) <= occ t (submitted l) /\
        occ t (finished l) <=
          occ t (claimed_tasks (threads_pool_ p)) + occ t (submitted l)) /\
   (forall i t,
      threads_pool_ p !! i = Some (AtInc t) ->
      exists p' l,
        run v [Spin i; Spin i] (set_tasks_pool [] p) no_entries = Some (p', l) /\
        finished l = [t] /\ threads_pool_ p' !! i = Some AtDec) /\
   (forall i t,
      threads_pool_ p !! i = Some (AtRun t) ->
      exists p' l,
        run v [Spin i] (set_tasks_pool [] p) no_entries = Some (p', l) /\
        finished l = [t] /\ threads_pool_ p' !! i = Some AtDec)).
Proof.
  split; intros Hg; cbn; unfold clear; rewrite Hg; [done |].
  do 6 (split; [done |]).
  split; [|split].
  - intros acts p' l Hrun t. split.
    + assert (Hq : queue_balanced t [] p' l).
      { eapply run_queue_balanced; [|exact Hrun]. by unfold queue_balanced. }
      unfold queue_balanced in Hq. simpl in Hq. lia.
    + assert (Hb : balanced t (claimed_tasks (threads_pool_ p)) p' l).
      { eapply run_balanced; [|exact Hrun].
        unfold balanced. cbn. rewrite occ_claimed_tasks. lia. }
      unfold balanced in Hb. lia.
  - intros i t Hi.
    assert (Hlt : i < length (threads_pool_ p)) by by eapply lookup_lt_Some.
    cbn. unfold spin. fields. rewrite Hi. cbn. unfold spin. fields.
    rewrite list_lookup_insert_eq by done. cbn.
    eexists _, _. split; [done |]. cbn. split; [done |].
    rewrite list_lookup_insert_eq; [done |]. by rewrite length_insert.
  - intros i t Hi.
    assert (Hlt : i < length (threads_pool_ p)) by by eapply lookup_lt_Some.
    cbn. unfold spin. fields. rewrite Hi. cbn.
    eexists _, _. split; [done |]. cbn. split; [done |].
    by rewrite list_lookup_insert_eq.
Qed.

(** ** A pool of zero threads *)

Lemma no_thread_no_claim a p : threads_pool_ p = [] -> claims a p = None.
Proof. intros E. destruct a; cbn; try done. by rewrite E. Qed.

Lemma no_thread_no_spin v i p : threads_pool_ p = [] -> step v (Spin i) p = None.
Proof. intros E. cbn. unfold spin. by rewrite E. Qed.

Lemma dequeued_record a p l :
  dequeued (record_action a p l) = dequeued l ++ option_list (claims a p).
Proof. destruct a; cbn; by rewrite ?app_nil_r. Qed.

(** [C10] The constructor accepts a thread count of zero: the pool is
    down, with nothing pending and nothing running.  [start()] on it sets
    the status to [UP] and spawns no thread.  Along every schedule of such
    a pool [threads_pool_] stays empty, no worker step exists and no task is
    ever dequeued: the queue holds every task submitted and not cleared,
    whatever the status says. *)
Theorem zero_threads_pool v :
  status (ThreadPool_new 0) = DOWN /\
  pending (ThreadPool_new 0) = 0%Z /\
  running (ThreadPool_new 0) = 0%Z /\
  step v CallStart (ThreadPool_new 0) = Some (start_threads (ThreadPool_new 0)) /\
  status (start_threads (ThreadPool_new 0)) = UP /\
  threads_pool_ (start_threads (ThreadPool_new 0)) = [] /\
  (forall acts p l,
     run v acts (ThreadPool_new 0) no_entries = Some (p, l) ->
     threads_pool_ p = [] /\
     dequeued l = [] /\
     tasks_pool_ p = retained l /\
     (forall a, claims a p = None) /\
     (forall i, step v (Spin i) p = None)).
Proof.
  do 6 (split; [done |]).
  intros acts p l Hrun.
  assert (Hempty : forall q, reachable v 0 q -> threads_pool_ q = []).
  { intros q Hq. apply (reachable_consistent v 0) in Hq; [|done].
    destruct Hq as [_ [E|E] _ _ _]; [done |]. by apply nil_length_inv. }
  assert (H : reachable v 0 p /\ dequeued l = []).
  { eapply (run_invariant v (fun q m => reachable v 0 q /\ dequeued m = []));
      [| |exact Hrun]; [|split; [constructor | done]].
    intros a q m q' [Hq Hd] Hstep. split; [by eapply reachable_step |].
    by rewrite dequeued_record, Hd, no_thread_no_claim by auto. }
  destruct H as [Hp Hd]. specialize (Hempty p Hp).
  assert (Hfifo : fifo p l) by (eapply run_fifo; [|exact Hrun]; done).
  unfold fifo in Hfifo. rewrite Hd in Hfifo. simpl in Hfifo.
  repeat split; auto using no_thread_no_claim, no_thread_no_spin.
Qed.

(** ** The counters *)

Lemma perm_of_occ (l1 l2 : list Task) :
  (forall t, occ t l1 = occ t l2) -> l1 ≡ₚ l2.
Proof. intros H. by apply (Permutation_count_occ Nat.eq_dec). Qed.

(** Along every schedule from a new pool, the tasks submitted are, up to
    order, those finished, discarded, held by a worker or queued. *)
Lemma run_conservation v n acts p l :
  run v acts (ThreadPool_new n) no_entries = Some (p, l) ->
  submitted l ≡ₚ
    finished l ++ discarded l ++ claimed_tasks (threads_pool_ p) ++ tasks_pool_ p.
Proof.
  intros Hrun. apply perm_of_occ. intros t.
  assert (Hb : balanced t [] p l)
    by (eapply run_balanced; [|exact Hrun]; by unfold balanced).
  unfold balanced in Hb. rewrite !occ_app, occ_claimed_tasks. simpl in Hb. lia.
Qed.

Lemma run_queue_conservation v n acts p l :
  run v acts (ThreadPool_new n) no_entries = Some (p, l) ->
  submitted l ≡ₚ dequeued l ++ discarded l ++ tasks_pool_ p.
Proof.
  intros Hrun. apply perm_of_occ. intros t.
  assert (Hb : queue_balanced t [] p l)
    by (eapply run_queue_balanced; [|exact Hrun]; by unfold queue_balanced).
  unfold queue_balanced in Hb. rewrite !occ_app. simpl in Hb. lia.
Qed.

(** [C2], as amended.  Along every schedule, [pending()] is the number of
    tasks submitted, not dequeued and not discarded, and [running()] is the
    number of workers between their increment and their decrement of the
    counter.  Their sum is the number of submitted tasks that are neither
    finished nor discarded, less the tasks dequeued and not yet counted,
    plus the tasks finished and not yet uncounted. *)
Theorem counters_account v n acts p l :
  (Z.of_nat n < SIZE_MOD)%Z ->
  run v acts (ThreadPool_new n) no_entries = Some (p, l) ->
  pending p =
    (Z.of_nat (length (submitted l)) - Z.of_nat (length (dequeued l))
     - Z.of_nat (length (discarded l)))%Z /\
  running p = Z.of_nat (tally counted (threads_pool_ p)) /\
  (pending p + running p)%Z =
    (Z.of_nat (length (submitted l)) - Z.of_nat (length (finished l))
     - Z.of_nat (length (discarded l))
     - Z.of_nat (tally uncounted (threads_pool_ p))
     + Z.of_nat (tally finishing (threads_pool_ p)))%Z.
Proof.
  intros Hn Hrun.
  pose proof (run_conservation v n acts p l Hrun) as Hall.
  pose proof (run_queue_conservation v n acts p l Hrun) as Hqueue.
  apply Permutation_length in Hall, Hqueue.
  repeat rewrite length_app in Hall. repeat rewrite length_app in Hqueue.
  rewrite length_claimed_tasks in Hall.
  assert (Hp : reachable v n p)
    by (eapply exec_reachable, run_exec; exact Hrun).
  destruct (reachable_consistent v n Hn p Hp) as [_ _ _ Hcount _].
  unfold pending, running. rewrite Hcount.
  pose proof (tally_counted (threads_pool_ p)).
  repeat split; lia.
Qed.

(** [C2], as stated, fails in every revision: a worker that has dequeued
    the only task and released the lock has not yet incremented the
    counter; the task is submitted, not finished and not discarded, and is
    counted by neither [pending()] nor [running()].  Shown in [Rev0] and in
    [Rev2]. *)
Lemma counters_miss_dequeued_task :
  (exists p l,
    run Rev0 [AddTask 7 0; CallStart; Spin 0; Spin 0; Spin 0; Spin 0]
        (ThreadPool_new 1) no_entries = Some (p, l) /\
    threads_pool_ p = [AtInc 7] /\
    submitted l = [7] /\ finished l = [] /\ discarded l = [] /\
    pending p = 0%Z /\ running p = 0%Z /\
    (pending p + running p)%Z <>
      (Z.of_nat (length (submitted l)) - Z.of_nat (length (finished l))
       - Z.of_nat (length (discarded l)))%Z) /\
  (exists p l,
    run Rev2 [AddTask 7 0; CallStart; Spin 0; Spin 0; Spin 0; Spin 0; Spin 0]
        (ThreadPool_new 1) no_entries = Some (p, l) /\
    threads_pool_ p = [AtInc 7] /\
    submitted l = [7] /\ finished l = [] /\ discarded l = [] /\
    pending p = 0%Z /\ running p = 0%Z /\
    (pending p + running p)%Z <>
      (Z.of_nat (length (submitted l)) - Z.of_nat (length (finished l))
       - Z.of_nat (length (discarded l)))%Z).
Proof.
  split; eexists _, _; (split; [reflexivity |]); repeat split; done.
Qed.

(** ** Waiting for idleness *)

Lemma exec_queue_empty v acts p p' :
  forallb (fun a => negb (is_add_task a)) acts = true ->
  tasks_pool_ p = [] ->
  exec v acts p = Some p' ->
  tasks_pool_ p' = [].
Proof.
  revert p. induction acts as [|a acts IH]; intros p Hadd Hq; simpl.
  - by intros [= <-].
  - simpl in Hadd. apply andb_prop in Hadd as [Ha Hadd].
    destruct (step v a p) as [p1|] eqn:Hstep; [|done].
    apply IH; [done |].
    pose proof (queue_step v a p p1 Hstep) as Hchange.
    destruct a; try done; destruct (claims _ p); congruence.
Qed.

Lemma exec_caller v acts p p' :
  forallb (fun a => negb (is_resume a)) acts = true ->
  caller_ p <> Idle ->
  exec v acts p = Some p' ->
  caller_ p' = caller_ p.
Proof.
  revert p. induction acts as [|a acts IH]; intros p Hres Hc; simpl.
  - by intros [= <-].
  - simpl in Hres. apply andb_prop in Hres as [Ha Hres].
    destruct (step v a p) as [p1|] eqn:Hstep; [|done].
    assert (caller_ p1 = caller_ p) as E.
    { step_cases Hstep; try notify_one_split; fields; done. }
    intros Hexec. rewrite <- E. apply IH; [done | congruence | done].
Qed.

(** [C3], as amended.  [waitForIdle()] returns only from its call of
    [is_running()], after [is_pending()] has returned false, and at that
    moment [running()] is zero.  If no [addTask] ran between the two
    calls, [pending()] is zero as well at that moment.  It does not return
    from an observation of a non-empty queue or of a non-zero counter: it
    goes on waiting. *)
Theorem waitForIdle_return v p1 p2 acts p3 p4 :
  caller_ p1 = InWaitForIdle_is_pending ->
  step v Resume p1 = Some p2 ->
  caller_ p2 = InWaitForIdle_is_running ->
  forallb (fun a => negb (is_resume a)) acts = true ->
  exec v acts p2 = Some p3 ->
  step v Resume p3 = Some p4 ->
  caller_ p4 = Idle ->
  pending p1 = 0%Z /\
  running p4 = 0%Z /\
  (forallb (fun a => negb (is_add_task a)) acts = true -> pending p4 = 0%Z) /\
  (forall a q q',
     step v a q = Some q' -> caller_ q' = Idle ->
     caller_ q = InWaitForIdle_is_pending \/ caller_ q = InWaitForIdle_is_running ->
     a = Resume /\ caller_ q = InWaitForIdle_is_running /\ running q' = 0%Z) /\
  (forall q q',
     caller_ q = InWaitForIdle_is_pending -> pending q <> 0%Z ->
     step v Resume q = Some q' -> q' = q) /\
  (forall q q',
     caller_ q = InWaitForIdle_is_running -> running q <> 0%Z ->
     step v Resume q = Some q' -> caller_ q' = InWaitForIdle_is_pending).
Proof.
  intros Hc1 H12 Hc2 Hres H23 H34 Hc4.
  assert (Hq2 : tasks_pool_ p2 = [] /\ tasks_pool_ p1 = []).
  { cbn in H12. unfold resume in H12. rewrite Hc1 in H12.
    destruct (guardian_ p1); [done |]. unfold is_pending in H12.
    destruct (tasks_pool_ p1) eqn:E; [|congruence].
    injection H12 as <-. done. }
  destruct Hq2 as [Hq2 Hq1].
  assert (Hc3 : caller_ p3 = InWaitForIdle_is_running).
  { rewrite <- Hc2. eapply exec_caller; eauto. congruence. }
  assert (Hret : running p4 = 0%Z /\ tasks_pool_ p4 = tasks_pool_ p3).
  { cbn in H34. unfold resume in H34. rewrite Hc3 in H34.
    unfold is_running, running in *.
    destruct (running_tasks_count_ p3 =? 0)%Z eqn:E; cbn in H34;
      injection H34 as <-; [|done].
    apply Z.eqb_eq in E. done. }
  destruct Hret as [Hr4 Hq4].
  split; [unfold pending; by rewrite Hq1 |].
  split; [done |].
  split; [|split; [|split]].
  - intros Hadd. unfold pending. rewrite Hq4.
    by rewrite (exec_queue_empty v acts p2 p3).
  - intros a q q' Hstep Hidle Hwait. unfold running.
    step_cases Hstep; try notify_one_split; fields;
      destruct Hwait; try congruence.
    unfold is_running in *. repeat split; try done.
    match goal with
    | E : negb _ = false |- _ => apply negb_false_iff, Z.eqb_eq in E
    end. done.
  - intros q q' Hc Hp Hstep. cbn in Hstep. unfold resume in Hstep.
    rewrite Hc in Hstep. destruct (guardian_ q); [done |].
    unfold is_pending, pending in *.
    destruct (tasks_pool_ q); [done | congruence].
  - intros q q' Hc Hp Hstep. cbn in Hstep. unfold resume in Hstep.
    rewrite Hc in Hstep. unfold is_running, running in *.
    destruct (running_tasks_count_ q =? 0)%Z eqn:E; cbn in Hstep;
      injection Hstep as <-; [|done].
    apply Z.eqb_eq in E. done.
Qed.

(** [C3], as stated, fails: [waitForIdle()] calls [is_pending()] and
    [is_running()] one after the other.  A task added by another thread
    between the two calls is pending when [waitForIdle()] returns.  Shown
    in [Rev0] and in [Rev2]. *)
Lemma waitForIdle_returns_with_pending_task :
  (exists p p',
     exec Rev0 [CallStart; CallWaitForIdle; Resume; AddTask 3 0]
          (ThreadPool_new 1) = Some p /\
     caller_ p = InWaitForIdle_is_running /\
     step Rev0 Resume p = Some p' /\
     caller_ p' = Idle /\
     pending p' = 1%Z /\
     ~ (pending p' = 0%Z /\ running p' = 0%Z)) /\
  (exists p p',
     exec Rev2 [CallStart; CallWaitForIdle; Resume; AddTask 3 0]
          (ThreadPool_new 1) = Some p /\
     caller_ p = InWaitForIdle_is_running /\
     step Rev2 Resume p = Some p' /\
     caller_ p' = Idle /\
     pending p' = 1%Z /\
     ~ (pending p' = 0%Z /\ running p' = 0%Z)).
Proof.
  split; eexists _, _; (split; [reflexivity |]);
    (split; [reflexivity |]); (split; [reflexivity |]);
    (split; [reflexivity |]); (split; [reflexivity |]);
    intros [H _]; discriminate H.
Qed.

(** [waitForIdle()] can also return while a worker holds a task it has
    dequeued and not yet counted: the task has not run when the call
    returns, although nothing is pending and nothing is counted as
    running. *)
Lemma waitForIdle_returns_before_run :
  let p := mkThreadPool 1 [] false [AtInc 7] true 0 Idle in
  exec Rev2 [AddTask 7 0; CallStart; Spin 0; Spin 0; Spin 0; Spin 0; Spin 0;
             CallWaitForIdle; Resume; Resume]
       (ThreadPool_new 1) = Some p /\
  pending p = 0%Z /\ running p = 0%Z /\
  claimed_tasks (threads_pool_ p) = [7].
Proof. repeat split; vm_compute; reflexivity. Qed.

(** ** Termination of the workers *)

Lemma forallb_lookup (f : spin_pc -> bool) l i c :
  forallb f l = true -> l !! i = Some c -> f c = true.
Proof.
  revert i. induction l as [|x l IH]; intros [|i] Hf Hi; simpl in *; try done;
    apply andb_prop in Hf as [Hx Hl].
  - by injection Hi as <-.
  - eauto.
Qed.

Lemma lookup_insert_cases (l : list spin_pc) i j c c' :
  <[j := c']> l !! i = Some c ->
  (i = j /\ c = c') \/ (i <> j /\ l !! i = Some c).
Proof.
  intros H. destruct (decide (i = j)) as [->|Hne].
  - left. split; [done |].
    rewrite list_lookup_insert_eq in H; [congruence |].
    apply lookup_lt_Some in H. by rewrite length_insert in H.
  - right. by rewrite list_lookup_insert_ne in H.
Qed.

(** In every revision a worker returns from [spin()] only by reading
    [alive_] false at [while(alive_)]; it holds no lock there and the step
    leaves the queue alone. *)
Lemma returns_only_at_while v a p p' i c :
  step v a p = Some p' ->
  threads_pool_ p !! i = Some c -> c <> Returned ->
  threads_pool_ p' !! i = Some Returned ->
  a = Spin i /\ c = AtWhile /\ alive_ p = false /\
  tasks_pool_ p' = tasks_pool_ p /\ guardian_ p' = guardian_ p.
Proof.
  intros H Hc Hne Hret.
  step_cases H; try notify_one_split; fields;
    try congruence;
    try (apply lookup_insert_cases in Hret as [[-> ?]|[? ?]]; congruence).
  all: try (rewrite spawn_repeat in Hret; simpl in Hret;
            apply lookup_lt_Some in Hc as Hlt;
            pose proof (forallb_lookup has_returned _ i c ltac:(eassumption) Hc);
            destruct c; done).
  all: try (rewrite lookup_nil in Hret; done).
  all: try done.
  all: try (unfold notify_all in Hret; rewrite list_lookup_fmap, Hc in Hret;
            destruct c; cbn in Hret; congruence).
  apply lookup_insert_cases in Hret as [[-> _]|[_ ?]]; [|congruence].
  repeat split; congruence.
Qed.

(** In every revision [alive_] is set only once every thread of
    [threads_pool_] has returned. *)
Lemma alive_kept_false v a p p' i c :
  step v a p = Some p' ->
  threads_pool_ p !! i = Some c -> c <> Returned ->
  alive_ p = false -> alive_ p' = false.
Proof.
  intros H Hc Hne Ha.
  step_cases H; try notify_one_split; fields; try congruence.
  - by rewrite lookup_nil in Hc.
  - pose proof (forallb_lookup has_returned _ i c ltac:(eassumption) Hc).
    destruct c; done.
Qed.

(** A worker that holds a task increments the counter, runs the task and
    decrements the counter, whatever the flag and the queue are. *)
Lemma claimed_task_completes v p i t :
  threads_pool_ p !! i = Some (AtInc t) ->
  exists p' l,
    run v [Spin i; Spin i; Spin i] p no_entries = Some (p', l) /\
    finished l = [t] /\
    threads_pool_ p' !! i = Some AtWhile /\
    alive_ p' = alive_ p /\ tasks_pool_ p' = tasks_pool_ p.
Proof.
  intros Hi.
  assert (Hlt : i < length (threads_pool_ p)) by by eapply lookup_lt_Some.
  cbn. unfold spin. fields. rewrite Hi. cbn. unfold spin. fields.
  rewrite list_lookup_insert_eq by done. cbn. unfold spin. fields.
  rewrite list_lookup_insert_eq by (by rewrite length_insert). cbn.
  eexists _, _. split; [done |]. cbn. split; [done |].
  split; [|done].
  rewrite list_lookup_insert_eq; [done |]. by rewrite !length_insert.
Qed.

(** [C1] in [Rev2].  While [alive_] is false no step dequeues a task.  A
    worker that reads [alive_] false, at [while(alive_)] or at
    [if(alive_)] after the wait, returns from [spin()] by its next steps,
    releasing the lock and leaving the queue alone; as long as it has not
    returned, no step sets [alive_]. *)
Lemma Rev2_down_no_claim n p :
  (Z.of_nat n < SIZE_MOD)%Z ->
  reachable Rev2 n p ->
  alive_ p = false ->
  (forall a, claims a p = None) /\
  (forall i,
     threads_pool_ p !! i = Some AtWhile ->
     exists p',
       step Rev2 (Spin i) p = Some p' /\
       threads_pool_ p' !! i = Some Returned /\
       tasks_pool_ p' = tasks_pool_ p) /\
  (forall i,
     threads_pool_ p !! i = Some AtIf ->
     exists p',
       exec Rev2 [Spin i; Spin i; Spin i] p = Some p' /\
       threads_pool_ p' !! i = Some Returned /\
       tasks_pool_ p' = tasks_pool_ p /\
       guardian_ p' = false) /\
  (forall i,
     threads_pool_ p !! i = Some AtPred ->
     exists p',
       exec Rev2 [Spin i; Spin i; Spin i; Spin i] p = Some p' /\
       threads_pool_ p' !! i = Some Returned /\
       tasks_pool_ p' = tasks_pool_ p /\
       guardian_ p' = false) /\
  (forall a p' i c,
     step Rev2 a p = Some p' ->
     threads_pool_ p !! i = Some c -> c <> Returned ->
     alive_ p' = false).
Proof.
  intros Hn Hp Ha.
  destruct (reachable_guarded n Hn p Hp) as [_ Hpop _ _ _].
  specialize (Hpop Ha).
  split; [|split; [|split; [|split]]].
  - intros [] *; cbn; try done.
    destruct (threads_pool_ p !! i) as [c|] eqn:Hi; [|done].
    pose proof (tally_zero_lookup at_pop _ i c Hpop Hi).
    destruct c; try done.
  - intros i Hi.
    assert (Hlt : i < length (threads_pool_ p)) by by eapply lookup_lt_Some.
    cbn. unfold spin. rewrite Hi, Ha. eexists. split; [done |]. fields.
    by rewrite list_lookup_insert_eq.
  - intros i Hi.
    assert (Hlt : i < length (threads_pool_ p)) by by eapply lookup_lt_Some.
    cbn. unfold spin. fields. rewrite Hi, Ha. cbn. unfold spin. fields.
    rewrite list_lookup_insert_eq by done. cbn. unfold spin. fields.
    rewrite list_lookup_insert_eq by (by rewrite length_insert). rewrite Ha.
    eexists. split; [done |]. fields. split; [|done].
    rewrite list_lookup_insert_eq; [done |]. by rewrite !length_insert.
  - intros i Hi.
    assert (Hlt : i < length (threads_pool_ p)) by by eapply lookup_lt_Some.
    cbn. unfold spin. fields. rewrite Hi, Ha. cbn. unfold spin. fields.
    rewrite list_lookup_insert_eq by done. rewrite Ha. cbn. unfold spin. fields.
    rewrite list_lookup_insert_eq by (by rewrite length_insert). cbn.
    unfold spin. fields.
    rewrite list_lookup_insert_eq by (by rewrite !length_insert). rewrite Ha.
    eexists. split; [done |]. fields. split; [|done].
    rewrite list_lookup_insert_eq; [done |]. by rewrite !length_insert.
  - intros a p' i c Hstep Hi Hne. by eapply alive_kept_false.
Qed.

(** [C1] fails in [Rev1] ([src/unnamed/part_000]).  After the wait the
    worker tests [!tasks_pool_.empty()], not [alive_]: a worker that has
    passed [while(alive_)] before [stop(ASYNC)] finds the wait predicate
    true because [alive_] is false, finds the queue non-empty, and dequeues
    and runs task 7 after [stop()] has returned. *)
Theorem Rev1_dequeues_after_stop :
  let p := mkThreadPool 1 [7] true [AtPop] false 0 Idle in
  let p' := mkThreadPool 1 [] false [AtDec] false 1 Idle in
  exec Rev1 [CallStart; AddTask 7 0; Spin 0; CallStop ASYNC; Resume;
             Spin 0; Spin 0; Spin 0] (ThreadPool_new 1) = Some p /\
  status p = DOWN /\
  claims (Spin 0) p = Some 7 /\
  run Rev1 [Spin 0; Spin 0; Spin 0] p no_entries =
    Some (p', mkLedger [] [] [7] [7] []) /\
  status p' = DOWN.
Proof. repeat split; vm_compute; reflexivity. Qed.

(** The polling workers of [Rev0] ([src/thread_pool.cpp]) have the same
    window between [while(alive_)] and the dequeue. *)
Lemma Rev0_dequeues_after_stop :
  let p := mkThreadPool 1 [7] true [AtPop] false 0 Idle in
  exec Rev0 [CallStart; AddTask 7 0; Spin 0; CallStop ASYNC; Spin 0; Spin 0]
       (ThreadPool_new 1) = Some p /\
  status p = DOWN /\
  claims (Spin 0) p = Some 7.
Proof. repeat split; vm_compute; reflexivity. Qed.

(** ** The termination signal *)

(** [C5] in [Rev0] and [Rev2].  [stop(sp)] clears [alive_]; its
    [notify_all()] moves every waiting worker out of the wait; and once
    [stop()] has issued it, as long as the pool is down, no worker waits on
    the condition variable nor is about to: none can have missed the
    signal.  In [Rev0] no worker ever waits. *)
Lemma stop_reaches_every_waiter v n p :
  v <> Rev1 ->
  (Z.of_nat n < SIZE_MOD)%Z ->
  reachable v n p ->
  (forall sp p', step v (CallStop sp) p = Some p' -> alive_ p' = false) /\
  (forall sp p',
     caller_ p = InStop_notify sp -> step v Resume p = Some p' ->
     threads_pool_ p' = notify_all (threads_pool_ p) /\
     tally is_parked (threads_pool_ p') = 0 /\
     alive_ p' = false) /\
  (alive_ p = false -> notify_pending (caller_ p) = false ->
   tally is_parked (threads_pool_ p) = 0 /\
   tally at_block (threads_pool_ p) = 0).
Proof.
  intros Hv Hn Hp. split; [|split].
  - intros sp p' H. cbn in H. unfold when_idle, stop in H.
    destruct (caller_ p); try done.
    destruct v; try done; [|destruct (guardian_ p); try done];
      by injection H as <-.
  - intros sp p' Hc H.
    destruct (reachable_consistent v n Hn p Hp) as [_ _ _ _ Hcall].
    cbn in H. unfold resume in H. rewrite Hc in H. injection H as <-. fields.
    rewrite tally_parked_notify_all. rewrite Hc in Hcall. auto.
  - intros Ha Hc. destruct v; [|done|].
    + pose proof (reachable_polling n p Hp).
      pose proof (tally_wait_parked (threads_pool_ p)). lia.
    + destruct (reachable_guarded n Hn p Hp) as [Hblock _ Hpark _ _]. auto.
Qed.

Lemma Rev1_parked_step a p p' :
  quiet a = true ->
  threads_pool_ p = [Parked] -> alive_ p = false ->
  notify_pending (caller_ p) = false ->
  step Rev1 a p = Some p' ->
  threads_pool_ p' = [Parked] /\ alive_ p' = false /\
  notify_pending (caller_ p') = false.
Proof.
  intros Hq Ht Ha Hc H.
  step_cases H; try discriminate Hq; fields; use_eqs;
    try rewrite Ht in *; try done.
  all: try (destruct i as [|[|i]]; cbn in *; congruence).
  all: try (cbn in *; congruence).
  all: try (unfold notify_one; cbn; done).
Qed.

(** In [Rev1], a worker parked while the pool is down stays parked under
    every schedule that holds neither a spurious wake-up nor another
    [stop()]. *)
Lemma Rev1_parked_forever acts p p' :
  forallb quiet acts = true ->
  threads_pool_ p = [Parked] -> alive_ p = false ->
  notify_pending (caller_ p) = false ->
  exec Rev1 acts p = Some p' ->
  threads_pool_ p' = [Parked] /\ alive_ p' = false.
Proof.
  revert p. induction acts as [|a acts IH]; intros p Hq Ht Ha Hc; simpl.
  - by intros [= <-].
  - simpl in Hq. apply andb_prop in Hq as [Hqa Hq].
    destruct (step Rev1 a p) as [p1|] eqn:Hstep; [|done].
    destruct (Rev1_parked_step a p p1 Hqa Ht Ha Hc Hstep) as (? & ? & ?).
    by apply IH.
Qed.

(** [C5] fails in [Rev1] ([src/unnamed/part_000]).  [stop()] clears
    [alive_] without holding [guardian_]: a worker that has evaluated the
    wait predicate to false and has not yet blocked misses [notify_all()]
    and parks for good.  After [stop(ASYNC)] has returned the worker is
    parked with the pool down; it has no step of its own, and [joinAll()]
    and [start()] block in [clean_up()].  [stop(SYNC)] itself never
    returns from [clean_up()]. *)
Theorem Rev1_lost_wakeup :
  let p := mkThreadPool 1 [] false [Parked] false 0 Idle in
  let q := mkThreadPool 1 [] false [Parked] false 0 InStop_clean_up in
  exec Rev1 [CallStart; Spin 0; Spin 0; Spin 0; CallStop ASYNC; Resume; Spin 0]
       (ThreadPool_new 1) = Some p /\
  status p = DOWN /\
  tally is_parked (threads_pool_ p) = 1 /\
  step Rev1 (Spin 0) p = None /\
  exec Rev1 [CallJoinAll; Resume] p = None /\
  exec Rev1 [CallStart; Resume] p = None /\
  exec Rev1 [CallStart; Spin 0; Spin 0; Spin 0; CallStop SYNC; Resume; Spin 0]
       (ThreadPool_new 1) = Some q /\
  step Rev1 Resume q = None.
Proof. repeat split; vm_compute; reflexivity. Qed.

(** ** Workers of [Rev2] do return once the pool is stopped *)

Lemma work_left_insert (l : list spin_pc) i c c' :
  l !! i = Some c ->
  work_left (<[i := c']> l) + steps_left c = work_left l + steps_left c'.
Proof.
  revert i. induction l as [|x l IH]; intros [|i] Hi; simpl in *; try done.
  - injection Hi as ->. lia.
  - specialize (IH i Hi). lia.
Qed.

Lemma tally_pos_lookup f (l : list spin_pc) :
  0 < tally f l -> exists i c, l !! i = Some c /\ f c = true.
Proof.
  induction l as [|x l IH]; simpl; [lia |].
  destruct (f x) eqn:Hx.
  - intros _. by exists 0, x.
  - intros H. destruct IH as (i & c & Hi & Hc); [lia |]. by exists (S i), c.
Qed.

Lemma not_all_returned (l : list spin_pc) :
  forallb has_returned l = false ->
  exists i c, l !! i = Some c /\ has_returned c = false.
Proof.
  induction l as [|x l IH]; simpl; [done |].
  destruct (has_returned x) eqn:Hx; simpl.
  - intros H. destruct (IH H) as (i & c & Hi & Hc). by exists (S i), c.
  - intros _. by exists 0, x.
Qed.

(** While the pool of [Rev2] is down and [stop()] has issued its
    [notify_all()], some worker that has not returned can take a step, and
    the step brings it closer to its return without touching the queue. *)
Lemma Rev2_down_progress n p :
  (Z.of_nat n < SIZE_MOD)%Z ->
  reachable Rev2 n p ->
  alive_ p = false -> notify_pending (caller_ p) = false ->
  forallb has_returned (threads_pool_ p) = false ->
  exists i p',
    step Rev2 (Spin i) p = Some p' /\
    work_left (threads_pool_ p') < work_left (threads_pool_ p) /\
    alive_ p' = false /\ caller_ p' = caller_ p /\
    tasks_pool_ p' = tasks_pool_ p.
Proof.
  intros Hn Hp Ha Hc Hret.
  destruct (reachable_consistent Rev2 n Hn p Hp) as [_ _ Hlock _ _].
  destruct (reachable_guarded n Hn p Hp) as [Hblock Hpop Hpark _ _].
  specialize (Hblock Ha). specialize (Hpop Ha). specialize (Hpark Ha Hc).
  assert (Hpick : exists i c,
             threads_pool_ p !! i = Some c /\ has_returned c = false /\
             (guardian_ p = true -> holds_lock c = true)).
  { destruct (guardian_ p) eqn:Hg.
    - destruct (tally_pos_lookup holds_lock (threads_pool_ p)) as (i & c & Hi & Hh).
      + rewrite Hlock. simpl. lia.
      + exists i, c. repeat split; try done. by destruct c.
    - destruct (not_all_returned _ Hret) as (i & c & Hi & Hr).
      exists i, c. repeat split; done. }
  destruct Hpick as (i & c & Hi & Hr & Hh).
  pose proof (tally_zero_lookup at_block _ i c Hblock Hi) as Hb.
  pose proof (tally_zero_lookup at_pop _ i c Hpop Hi) as Hq.
  pose proof (tally_zero_lookup is_parked _ i c Hpark Hi) as Hk.
  exists i. cbn. unfold spin. rewrite Hi.
  destruct (guardian_ p) eqn:Hg.
  - specialize (Hh eq_refl).
    destruct c; try discriminate; rewrite ?Ha; cbn;
      eexists; (split; [done |]); fields;
      match goal with
      | |- work_left (<[_ := ?c']> _) < _ /\ _ =>
          pose proof (work_left_insert _ i _ c' Hi)
      end; cbn in *; repeat split; (done || lia).
  - pose proof (tally_insert holds_lock _ i c Returned Hi) as Hfree.
    rewrite Hlock in Hfree. cbn in Hfree.
    destruct c; try discriminate; rewrite ?Ha; cbn in *; try lia;
      eexists; (split; [done |]); fields;
      match goal with
      | |- work_left (<[_ := ?c']> _) < _ /\ _ =>
          pose proof (work_left_insert _ i _ c' Hi)
      end; cbn in *; repeat split; (done || lia).
Qed.

(** Hence, from every reachable pool of [Rev2] that is down and past the
    [notify_all()] of [stop()], some schedule of worker steps leads every
    thread to its return (each [run()] being one step, that is, provided
    every task returns): [clean_up()] can then complete. *)
Lemma Rev2_workers_return n p :
  (Z.of_nat n < SIZE_MOD)%Z ->
  reachable Rev2 n p ->
  alive_ p = false -> notify_pending (caller_ p) = false ->
  exists acts p',
    forallb is_spin acts = true /\
    exec Rev2 acts p = Some p' /\
    forallb has_returned (threads_pool_ p') = true /\
    alive_ p' = false /\ caller_ p' = caller_ p /\
    tasks_pool_ p' = tasks_pool_ p.
Proof.
  intros Hn.
  remember (work_left (threads_pool_ p)) as m eqn:Hm.
  revert p Hm. induction (lt_wf m) as [m _ IH]. intros p -> Hp Ha Hc.
  destruct (forallb has_returned (threads_pool_ p)) eqn:Hret.
  - exists [], p. by repeat split.
  - destruct (Rev2_down_progress n p Hn Hp Ha Hc Hret)
      as (i & p1 & Hstep & Hlt & Ha1 & Hc1 & Hq1).
    destruct (IH _ Hlt p1 eq_refl) as (acts & p' & Hs & He & Hr & Ha' & Hc' & Hq').
    + by eapply reachable_step.
    + done.
    + by rewrite Hc1.
    + exists (Spin i :: acts), p'.
      change (exec Rev2 (Spin i :: acts) p)
        with (match step Rev2 (Spin i) p with
              | Some q => exec Rev2 acts q
              | None => None
              end).
      rewrite Hstep. repeat split; try done; congruence.
Qed.

(** In [Rev2] a [stop(SYNC)] that has entered [clean_up()] can always
    return: after some schedule of worker steps the join completes and
    the owner is back from the call, with the queue as it was. *)
Lemma Rev2_stop_sync_can_return n p :
  (Z.of_nat n < SIZE_MOD)%Z ->
  reachable Rev2 n p ->
  caller_ p = InStop_clean_up ->
  exists acts p',
    forallb is_spin acts = true /\
    exec Rev2 (acts ++ [Resume]) p = Some p' /\
    caller_ p' = Idle /\ threads_pool_ p' = [] /\ alive_ p' = false /\
    tasks_pool_ p' = tasks_pool_ p.
Proof.
  intros Hn Hp Hc.
  destruct (reachable_consistent Rev2 n Hn p Hp) as [_ _ _ _ Hcall].
  rewrite Hc in Hcall. specialize (Hcall eq_refl).
  destruct (Rev2_workers_return n p Hn Hp Hcall) as
    (acts & p1 & Hs & He & Hr & Ha & Hc1 & Hq); [by rewrite Hc |].
  exists acts. rewrite exec_app, He. cbn. unfold resume, clean_up.
  rewrite Hc1, Hc, Hr. cbn. eexists. split; [done |]. split; [done |].
  fields. repeat split; done.
Qed.

(** * The theorems at concrete schedules *)


(** A task is added to a [Rev2] pool that is up and whose single worker is
    parked: the worker is woken. *)
Lemma addTask_effect_witness :
  let p := mkThreadPool 1 [] false [Parked] true 0 Idle in
  guardian_ p = false /\
  exists p',
    step Rev2 (AddTask 7 0) p = Some p' /\
    tasks_pool_ p' = tasks_pool_ p ++ [7] /\
    pending p' = (pending p + 1)%Z /\
    alive_ p' = alive_ p.
Proof.
  intros p. split; [reflexivity |].
  destruct (addTask_effect Rev2 7 0 p) as [_ H].
  destruct (H eq_refl) as (p' & H1 & H2 & H3 & _ & _ & H4 & _).
  exists p'. auto.
Defined.



(** [clear()] on a [Rev2] pool with one task queued and one held by the
    worker. *)
Lemma clear_effect_witness :
  let p := mkThreadPool 1 [2] false [AtInc 1] true 0 Idle in
  guardian_ p = false /\
  step Rev2 Clear p = Some (set_tasks_pool [] p) /\
  pending (set_tasks_pool [] p) = 0%Z /\
  exists p' l,
    run Rev2 [Spin 0; Spin 0] (set_tasks_pool [] p) no_entries = Some (p', l) /\
    finished l = [1].
Proof.
  intros p. split; [reflexivity |].
  destruct (clear_effect Rev2 p) as [_ H].
  destruct (H eq_refl) as (H1 & H2 & _ & _ & _ & _ & _ & H3 & _).
  split; [exact H1 |]. split; [exact H2 |].
  destruct (H3 0 1 eq_refl) as (p' & l & H4 & H5 & _).
  exists p', l. auto.
Defined.

(** A pool of zero threads is given a task and started. *)
Lemma zero_threads_pool_witness :
  let p := mkThreadPool 0 [5] false [] true 0 Idle in
  let l := mkLedger [5] [] [] [] [5] in
  run Rev2 [AddTask 5 0; CallStart] (ThreadPool_new 0) no_entries = Some (p, l) /\
  status p = UP /\
  threads_pool_ p = [] /\ dequeued l = [] /\ tasks_pool_ p = retained l.
Proof.
  intros p l.
  assert (Hrun : run Rev2 [AddTask 5 0; CallStart] (ThreadPool_new 0) no_entries
                 = Some (p, l)) by reflexivity.
  split; [exact Hrun |]. split; [reflexivity |].
  destruct (zero_threads_pool Rev2) as (_ & _ & _ & _ & _ & _ & H).
  destruct (H _ p l Hrun) as (H1 & H2 & H3 & _).
  auto.
Defined.

(** The worker of a [Rev2] pool has dequeued the only task and has not yet
    counted it. *)
Lemma counters_account_witness :
  let p := mkThreadPool 1 [] false [AtInc 7] true 0 Idle in
  let l := mkLedger [7] [] [7] [] [7] in
  (Z.of_nat 1 < SIZE_MOD)%Z /\
  run Rev2 [AddTask 7 0; CallStart; Spin 0; Spin 0; Spin 0; Spin 0; Spin 0]
      (ThreadPool_new 1) no_entries = Some (p, l) /\
  (pending p + running p)%Z =
    (Z.of_nat (length (submitted l)) - Z.of_nat (length (finished l))
     - Z.of_nat (length (discarded l))
     - Z.of_nat (tally uncounted (threads_pool_ p))
     + Z.of_nat (tally finishing (threads_pool_ p)))%Z.
Proof.
  intros p l.
  assert (Hrun : run Rev2 [AddTask 7 0; CallStart;
                           Spin 0; Spin 0; Spin 0; Spin 0; Spin 0]
                     (ThreadPool_new 1) no_entries = Some (p, l)) by reflexivity.
  split; [reflexivity |]. split; [exact Hrun |].
  destruct (counters_account Rev2 1 _ p l eq_refl Hrun) as (_ & _ & H).
  exact H.
Defined.

(** [waitForIdle()] on an idle [Rev2] pool: the worker takes a step between
    the two observations, and the call returns. *)
Lemma waitForIdle_return_witness :
  let p1 := mkThreadPool 1 [] false [AtWhile] true 0 InWaitForIdle_is_pending in
  let p2 := mkThreadPool 1 [] false [AtWhile] true 0 InWaitForIdle_is_running in
  let p3 := mkThreadPool 1 [] false [AtLock] true 0 InWaitForIdle_is_running in
  let p4 := mkThreadPool 1 [] false [AtLock] true 0 Idle in
  step Rev2 Resume p1 = Some p2 /\
  exec Rev2 [Spin 0] p2 = Some p3 /\
  step Rev2 Resume p3 = Some p4 /\
  pending p1 = 0%Z /\ running p4 = 0%Z /\ pending p4 = 0%Z.
Proof.
  intros p1 p2 p3 p4.
  split; [reflexivity |]. split; [reflexivity |]. split; [reflexivity |].
  destruct (waitForIdle_return Rev2 p1 p2 [Spin 0] p3 p4) as (H1 & H2 & H3 & _);
    try reflexivity.
  split; [exact H1 |]. split; [exact H2 |]. exact (H3 eq_refl).
Defined.


(** * Further properties of the code *)

(** ** The running counter *)

(** [X1] [running_tasks_count_] never wraps around: in every reachable
    pool it lies between zero and the number of threads, itself at most
    [threads_count_]; the increment of a worker adds exactly one, and a
    worker decrements only a counter that is at least one. *)
Theorem running_in_bounds v n p :
  (Z.of_nat n < SIZE_MOD)%Z ->
  reachable v n p ->
  (0 <= running p <= Z.of_nat (length (threads_pool_ p)))%Z /\
  length (threads_pool_ p) <= n /\
  (is_running p = true <-> 0 < tally counted (threads_pool_ p)) /\
  (forall i t,
     threads_pool_ p !! i = Some (AtInc t) ->
     exists p',
       step v (Spin i) p = Some p' /\ running p' = (running p + 1)%Z) /\
  (forall i,
     threads_pool_ p !! i = Some AtDec ->
     (1 <= running p)%Z /\
     exists p',
       step v (Spin i) p = Some p' /\ running p' = (running p - 1)%Z).
Proof.
  intros Hn Hp.
  destruct (reachable_consistent v n Hn p Hp) as [_ Hlen _ Hrun _].
  pose proof (tally_le counted (threads_pool_ p)) as Hle.
  assert (Hlen' : length (threads_pool_ p) <= n).
  { destruct Hlen as [E|E]; [rewrite E; simpl; lia | lia]. }
  unfold running, is_running. rewrite Hrun.
  split; [lia |]. split; [done |]. split; [|split].
  - rewrite negb_true_iff, Z.eqb_neq. lia.
  - intros i t Hi. cbn. unfold spin. rewrite Hi.
    eexists. split; [done |]. fields. rewrite Hrun.
    pose proof (tally_insert counted _ i _ (AtRun t) Hi) as Hins.
    pose proof (tally_le counted (<[i:=AtRun t]> (threads_pool_ p))) as Hle'.
    rewrite length_insert in Hle'. cbn in Hins.
    apply wrap_small. lia.
  - intros i Hi.
    pose proof (tally_lookup counted _ i _ Hi eq_refl) as Hpos.
    split; [lia |]. cbn. unfold spin. rewrite Hi.
    eexists. split; [done |]. fields. rewrite Hrun.
    apply wrap_small. lia.
Qed.

Lemma running_in_bounds_witness :
  let p := mkThreadPool 1 [] false [AtInc 7] true 0 Idle in
  exec Rev2 [AddTask 7 0; CallStart; Spin 0; Spin 0; Spin 0; Spin 0; Spin 0]
       (ThreadPool_new 1) = Some p /\
  (0 <= running p <= Z.of_nat (length (threads_pool_ p)))%Z /\
  exists p', step Rev2 (Spin 0) p = Some p' /\ running p' = (running p + 1)%Z.
Proof.
  intros p.
  assert (Hexec : exec Rev2 [AddTask 7 0; CallStart;
                             Spin 0; Spin 0; Spin 0; Spin 0; Spin 0]
                       (ThreadPool_new 1) = Some p) by reflexivity.
  split; [exact Hexec |].
  destruct (running_in_bounds Rev2 1 p) as (H1 & _ & _ & H2 & _).
  - reflexivity.
  - exact (exec_reachable Rev2 1 _ p Hexec).
  - split; [exact H1 |]. exact (H2 0 7 eq_refl).
Defined.

(** ** The queue lock *)

Lemma tally_two f (l : list spin_pc) i j c d :
  f Returned = false ->
  l !! i = Some c -> l !! j = Some d -> i <> j ->
  f c = true -> f d = true -> 2 <= tally f l.
Proof.
  intros Hf Hi Hj Hne Hc Hd.
  pose proof (tally_insert f l i c Returned Hi) as Hins.
  rewrite Hc, Hf in Hins. simpl in Hins.
  assert (Hj' : <[i := Returned]> l !! j = Some d)
    by by rewrite list_lookup_insert_ne.
  pose proof (tally_lookup f _ j d Hj' Hd). lia.
Qed.

(** [X2] [guardian_] is a mutual exclusion: in every reachable pool at
    most one worker is between its acquisition and its release of the
    lock, the lock is held exactly when there is one, and a worker that
    runs a task, or waits on the condition variable, does not hold it. *)
Theorem guardian_exclusive v n p :
  (Z.of_nat n < SIZE_MOD)%Z ->
  reachable v n p ->
  (forall i j c d,
     threads_pool_ p !! i = Some c -> threads_pool_ p !! j = Some d ->
     holds_lock c = true -> holds_lock d = true -> i = j) /\
  (guardian_ p = true <->
   exists i c, threads_pool_ p !! i = Some c /\ holds_lock c = true) /\
  (forall i t j c,
     threads_pool_ p !! i = Some (AtRun t) \/ threads_pool_ p !! i = Some Parked ->
     threads_pool_ p !! j = Some c -> holds_lock c = true -> i <> j).
Proof.
  intros Hn Hp.
  destruct (reachable_consistent v n Hn p Hp) as [_ _ Hlock _ _].
  split; [|split].
  - intros i j c d Hi Hj Hc Hd.
    destruct (decide (i = j)) as [|Hne]; [done |].
    pose proof (tally_two holds_lock _ i j c d eq_refl Hi Hj Hne Hc Hd).
    destruct (guardian_ p); simpl in Hlock; lia.
  - split.
    + intros Hg. rewrite Hg in Hlock. simpl in Hlock.
      apply tally_pos_lookup. lia.
    + intros (i & c & Hi & Hc).
      pose proof (tally_lookup holds_lock _ i c Hi Hc).
      destruct (guardian_ p); [done | simpl in Hlock; lia].
  - intros i t j c Hi Hj Hc ->. destruct Hi as [Hi|Hi];
      rewrite Hi in Hj; injection Hj as <-; discriminate.
Qed.

Lemma guardian_exclusive_witness :
  let p := mkThreadPool 2 [] true [AtPred; AtLock] true 0 Idle in
  exec Rev2 [CallStart; Spin 0; Spin 1; Spin 0] (ThreadPool_new 2) = Some p /\
  guardian_ p = true /\
  step Rev2 (Spin 1) p = None /\
  exists i c, threads_pool_ p !! i = Some c /\ holds_lock c = true.
Proof.
  intros p.
  assert (Hexec : exec Rev2 [CallStart; Spin 0; Spin 1; Spin 0]
                       (ThreadPool_new 2) = Some p) by reflexivity.
  split; [exact Hexec |]. split; [reflexivity |]. split; [reflexivity |].
  destruct (guardian_exclusive Rev2 2 p) as (_ & [H _] & _).
  - reflexivity.
  - exact (exec_reachable Rev2 2 _ p Hexec).
  - exact (H eq_refl).
Defined.

(** In every revision a worker reaches [front()] only with a non-empty
    queue: [Rev0] and [Rev1] have just tested it under the lock, [Rev2]
    has tested [alive_]. *)
Lemma pop_nonempty_step v n a p p' :
  v <> Rev2 ->
  consistent n p ->
  (0 < tally at_pop (threads_pool_ p) -> is_pending p = true) ->
  step v a p = Some p' ->
  0 < tally at_pop (threads_pool_ p') -> is_pending p' = true.
Proof.
  intros Hv [_ _ Hlock _ _] Hpop H.
  pose proof (tally_holds (threads_pool_ p)) as Hholds.
  unfold is_pending in *.
  step_cases H; try done.
  all: try notify_one_split.
  all: fields; use_eqs; unfold is_pending in *; fields; use_eqs.
  all: try assumption.
  all: try (intros; congruence).
  all: try (intros; tally_facts; tally_simpl; premises;
            first [lia | congruence | done]).
  all: intros; tally_facts; thread_facts; destruct (guardian_ p);
    tally_simpl; premises; first [lia | congruence | done].
Qed.

Lemma reachable_pop_nonempty v n p :
  (Z.of_nat n < SIZE_MOD)%Z ->
  reachable v n p ->
  0 < tally at_pop (threads_pool_ p) -> is_pending p = true.
Proof.
  intros Hn Hp.
  assert (v = Rev2 \/ v <> Rev2) as [->|Hv]
    by (destruct v; (by left) || (by right)).
  - by destruct (reachable_guarded n Hn p Hp).
  - induction Hp as [|p a p' Hp IH Hstep]; [simpl; lia |].
    eapply pop_nonempty_step; eauto. by eapply reachable_consistent.
Qed.

(** [X3] No revision calls [front()] on an empty queue: in every
    reachable pool a worker that is at its dequeue finds a task, takes the
    head of the queue, releases the lock and holds that task. *)
Theorem spin_dequeue_defined v n p i :
  (Z.of_nat n < SIZE_MOD)%Z ->
  reachable v n p ->
  threads_pool_ p !! i = Some AtPop ->
  exists t rest p',
    tasks_pool_ p = t :: rest /\
    step v (Spin i) p = Some p' /\
    threads_pool_ p' !! i = Some (AtInc t) /\
    tasks_pool_ p' = rest /\
    guardian_ p' = false.
Proof.
  intros Hn Hp Hi.
  pose proof (tally_lookup at_pop _ i _ Hi eq_refl) as Hpos.
  pose proof (reachable_pop_nonempty v n p Hn Hp Hpos) as Hq.
  assert (Hlt : i < length (threads_pool_ p)) by by eapply lookup_lt_Some.
  unfold is_pending in Hq. destruct (tasks_pool_ p) as [|t rest] eqn:E; [done |].
  exists t, rest. cbn. unfold spin. rewrite Hi, E.
  eexists. split; [done |]. split; [done |]. fields.
  split; [|done]. by rewrite list_lookup_insert_eq.
Qed.

Lemma spin_dequeue_defined_witness :
  let p := mkThreadPool 1 [7; 8] true [AtPop] true 0 Idle in
  exec Rev1 [AddTask 7 0; AddTask 8 0; CallStart; Spin 0; Spin 0; Spin 0; Spin 0]
       (ThreadPool_new 1) = Some p /\
  exists t rest p',
    tasks_pool_ p = t :: rest /\
    step Rev1 (Spin 0) p = Some p' /\
    threads_pool_ p' !! 0 = Some (AtInc t) /\
    tasks_pool_ p' = rest /\
    guardian_ p' = false.
Proof.
  intros p.
  assert (Hexec : exec Rev1 [AddTask 7 0; AddTask 8 0; CallStart;
                             Spin 0; Spin 0; Spin 0; Spin 0]
                       (ThreadPool_new 1) = Some p) by reflexivity.
  split; [exact Hexec |].
  apply (spin_dequeue_defined Rev1 1 p 0).
  - reflexivity.
  - exact (exec_reachable Rev1 1 _ p Hexec).
  - reflexivity.
Defined.





(** ** The worker threads *)





(** ** Every task once *)

(** [X6] No task is lost and none is executed twice.  Along every
    schedule from a new pool, the tasks passed to [addTask] are, occurrence
    by occurrence, the tasks whose [run()] has returned, the tasks removed
    by [clear()], the tasks held by a worker and the tasks in the queue;
    and the tasks dequeued are those whose [run()] has returned and those
    held by a worker. *)
Theorem task_conservation v n acts p l :
  run v acts (ThreadPool_new n) no_entries = Some (p, l) ->
  submitted l ≡ₚ
    finished l ++ discarded l ++ claimed_tasks (threads_pool_ p) ++ tasks_pool_ p /\
  dequeued l ≡ₚ finished l ++ claimed_tasks (threads_pool_ p) /\
  (forall t, occ t (finished l) <= occ t (submitted l)).
Proof.
  intros Hrun.
  assert (Hb : forall t, balanced t [] p l)
    by (intros t; eapply run_balanced; [|exact Hrun]; by unfold balanced).
  assert (Hq : forall t, queue_balanced t [] p l)
    by (intros t; eapply run_queue_balanced; [|exact Hrun];
        by unfold queue_balanced).
  unfold balanced, queue_balanced in *.
  split; [|split].
  - apply perm_of_occ. intros t. specialize (Hb t).
    rewrite !occ_app, occ_claimed_tasks. simpl in Hb. lia.
  - apply perm_of_occ. intros t. specialize (Hb t). specialize (Hq t).
    rewrite !occ_app, occ_claimed_tasks. simpl in Hb, Hq. lia.
  - intros t. specialize (Hb t). simpl in Hb. lia.
Qed.

Lemma task_conservation_witness :
  let p := mkThreadPool 1 [] false [AtRun 2] true 1 Idle in
  let l := mkLedger [1; 2; 3] [3] [1; 2] [1] [1; 2] in
  run Rev2 [AddTask 1 0; AddTask 2 0; CallStart;
            Spin 0; Spin 0; Spin 0; Spin 0; Spin 0; Spin 0; Spin 0; Spin 0;
            AddTask 3 0;
            Spin 0; Spin 0; Spin 0; Spin 0; Spin 0;
            Clear; Spin 0]
      (ThreadPool_new 1) no_entries = Some (p, l) /\
  submitted l ≡ₚ
    finished l ++ discarded l ++ claimed_tasks (threads_pool_ p) ++ tasks_pool_ p /\
  dequeued l ≡ₚ finished l ++ claimed_tasks (threads_pool_ p).
Proof.
  intros p l.
  assert (Hrun : run Rev2 [AddTask 1 0; AddTask 2 0; CallStart;
            Spin 0; Spin 0; Spin 0; Spin 0; Spin 0; Spin 0; Spin 0; Spin 0;
            AddTask 3 0;
            Spin 0; Spin 0; Spin 0; Spin 0; Spin 0;
            Clear; Spin 0]
      (ThreadPool_new 1) no_entries = Some (p, l)) by reflexivity.
  split; [exact Hrun |].
  destruct (task_conservation Rev2 1 _ p l Hrun) as (H1 & H2 & _).
  split; [exact H1 | exact H2].
Defined.

(** ** joinAll *)

(** [X7] [joinAll()] does nothing while the pool is up, and nothing when
    no thread is left to join.  On a stopped pool with threads it blocks
    until every thread has returned from [spin()]; it then empties
    [threads_pool_] and changes nothing else, so that afterwards the pool
    is down, without threads, with [running()] zero and the queue as it
    was. *)
Theorem joinAll_effect v n p :
  (Z.of_nat n < SIZE_MOD)%Z ->
  reachable v n p ->
  caller_ p = Idle ->
  (alive_ p = true -> step v CallJoinAll p = Some p) /\
  (threads_pool_ p = [] -> step v CallJoinAll p = Some p) /\
  (alive_ p = false -> threads_pool_ p <> [] ->
   (forallb has_returned (threads_pool_ p) = false ->
    exec v [CallJoinAll; Resume] p = None) /\
   (forallb has_returned (threads_pool_ p) = true ->
    exec v [CallJoinAll; Resume] p = Some (set_threads_pool [] p) /\
    running p = 0%Z)).
Proof.
  intros Hn Hp Hc.
  destruct (reachable_consistent v n Hn p Hp) as [_ _ _ Hrun _].
  split; [|split].
  - intros Ha. cbn. unfold when_idle, joinAll. by rewrite Hc, Ha.
  - intros He. cbn. unfold when_idle, joinAll. rewrite Hc, He.
    by destruct (alive_ p).
  - intros Ha He. destruct (threads_pool_ p) as [|c pool] eqn:E; [done |].
    cbn. unfold when_idle, joinAll. rewrite Hc, Ha, E. cbn.
    unfold resume, clean_up. cbn [caller_ set_caller threads_pool_]. rewrite E.
    destruct (forallb has_returned (c :: pool)) eqn:Hr; cbn.
    + cbn in Hr. split; [intros Hf; congruence |]. intros _. split.
      * unfold set_caller, set_threads_pool. cbn. by rewrite <- Hc.
      * unfold running. rewrite Hrun.
        by rewrite (tally_all_returned counted (c :: pool)).
    + cbn in Hr. split; [done |]. intros Hf. congruence.
Qed.

Lemma joinAll_effect_witness :
  let p := mkThreadPool 1 [9] false [Returned] false 0 Idle in
  exec Rev2 [CallStart; CallStop ASYNC; Resume; Spin 0; AddTask 9 0]
       (ThreadPool_new 1) = Some p /\
  caller_ p = Idle /\
  exec Rev2 [CallJoinAll; Resume] p = Some (set_threads_pool [] p) /\
  running p = 0%Z.
Proof.
  intros p.
  assert (Hexec : exec Rev2 [CallStart; CallStop ASYNC; Resume; Spin 0; AddTask 9 0]
                       (ThreadPool_new 1) = Some p) by reflexivity.
  split; [exact Hexec |]. split; [reflexivity |].
  destruct (joinAll_effect Rev2 1 p) as (_ & _ & H).
  - reflexivity.
  - exact (exec_reachable Rev2 1 _ p Hexec).
  - reflexivity.
  - destruct H as [_ H]; [reflexivity | discriminate |].
    exact (H eq_refl).
Defined.

(** ** A stopped pool keeps its queue *)

Lemma down_step_kept a p p' :
  is_call_start a = false ->
  alive_ p = false -> caller_ p <> InStart_clean_up ->
  step Rev2 a p = Some p' ->
  alive_ p' = false /\ caller_ p' <> InStart_clean_up.
Proof.
  intros Ha Hd Hc H.
  step_cases H; try discriminate Ha; try notify_one_split; fields;
    try (split; congruence).
  all: try (split; [congruence |]; unfold stop_tail;
            repeat match goal with
                   | |- context [match ?x with _ => _ end] => destruct x
                   end; congruence).
Qed.

(** [X8] In [Rev2] a pool that is down keeps its queue until the next
    [start()] or [clear()]: along every schedule without a call of
    [start()], from a reachable pool that is down, the pool stays down and
    no task is dequeued; without [clear()] the queue afterwards is the
    queue before followed by the tasks added meanwhile, in order. *)
Theorem Rev2_down_queue_kept n acts :
  (Z.of_nat n < SIZE_MOD)%Z ->
  forall p l p' l',
    reachable Rev2 n p ->
    alive_ p = false -> caller_ p <> InStart_clean_up ->
    forallb (fun a => negb (is_call_start a)) acts = true ->
    run Rev2 acts p l = Some (p', l') ->
    alive_ p' = false /\
    dequeued l' = dequeued l /\
    (forallb (fun a => negb (is_clear a)) acts = true ->
     exists added,
       submitted l' = submitted l ++ added /\
       tasks_pool_ p' = tasks_pool_ p ++ added).
Proof.
  intros Hn. induction acts as [|a acts IH]; intros p l p' l' Hp Hd Hc Hs; simpl.
  - intros [= <- <-]. repeat split; auto.
    intros _. exists []. by rewrite !app_nil_r.
  - simpl in Hs. apply andb_prop in Hs as [Ha Hs].
    apply negb_true_iff in Ha.
    destruct (step Rev2 a p) as [p1|] eqn:Hstep; [|done].
    intros Hrun.
    destruct (down_step_kept a p p1 Ha Hd Hc Hstep) as [Hd1 Hc1].
    assert (Hp1 : reachable Rev2 n p1) by by eapply reachable_step.
    destruct (IH p1 _ p' l' Hp1 Hd1 Hc1 Hs Hrun) as (Hd' & Hdq & Hq).
    destruct (Rev2_down_no_claim n p Hn Hp Hd) as (Hnc & _).
    split; [done |]. split.
    + rewrite Hdq, dequeued_record, Hnc. simpl. by rewrite app_nil_r.
    + intros Hcl. apply andb_prop in Hcl as [Hcla Hcl].
      destruct (Hq Hcl) as (added & Hsub & Htasks).
      pose proof (queue_step Rev2 a p p1 Hstep) as Hchange.
      destruct a; try discriminate Hcla; rewrite ?Hnc in Hchange;
        cbn [record_action submitted] in Hsub;
        try (exists added; split; [done | congruence]).
      exists (t :: added). rewrite Hsub, Htasks, Hchange, <- !app_assoc. done.
Qed.

Lemma Rev2_down_queue_kept_witness :
  let p := mkThreadPool 1 [1] false [Returned] false 0 Idle in
  let p' := mkThreadPool 1 [1; 2; 3] false [] false 0 Idle in
  exec Rev2 [AddTask 1 0; CallStart; CallStop ASYNC; Resume; Spin 0]
       (ThreadPool_new 1) = Some p /\
  run Rev2 [AddTask 2 0; CallJoinAll; Resume; AddTask 3 0] p no_entries =
    Some (p', mkLedger [2; 3] [] [] [] [2; 3]) /\
  alive_ p' = false /\
  exists added, tasks_pool_ p' = tasks_pool_ p ++ added.
Proof.
  intros p p'.
  assert (Hexec : exec Rev2 [AddTask 1 0; CallStart; CallStop ASYNC; Resume; Spin 0]
                       (ThreadPool_new 1) = Some p) by reflexivity.
  assert (Hrun : run Rev2 [AddTask 2 0; CallJoinAll; Resume; AddTask 3 0] p
                     no_entries = Some (p', mkLedger [2; 3] [] [] [] [2; 3]))
    by reflexivity.
  split; [exact Hexec |]. split; [exact Hrun |].
  destruct (Rev2_down_queue_kept 1
              [AddTask 2 0; CallJoinAll; Resume; AddTask 3 0]
              eq_refl p no_entries p' _
              (exec_reachable Rev2 1 _ p Hexec) eq_refl
              ltac:(discriminate) eq_refl Hrun) as (H1 & _ & H2).
  split; [exact H1 |].
  destruct (H2 eq_refl) as (added & _ & H3). exists added. exact H3.
Defined.

(** ** waitForIdle without workers *)




(** ** [clean_up()] in [Rev2] *)

(** [X10] In [Rev2] no call stays blocked in [clean_up()] for lack of a
    wake-up: from every reachable pool whose owner is in the [clean_up()]
    of [stop(SYNC)], [joinAll()] or [start()], some schedule of worker
    steps lets every thread return (each [run()] returning), after which
    the call completes: [stop] and [joinAll] leave the pool down and
    without threads, [start] leaves it up with [threads_count_] fresh
    workers; the queue is not touched. *)
Theorem Rev2_clean_up_completes n p :
  (Z.of_nat n < SIZE_MOD)%Z ->
  reachable Rev2 n p ->
  caller_ p = InStop_clean_up \/ caller_ p = InJoinAll_clean_up \/
  caller_ p = InStart_clean_up ->
  exists acts p',
    forallb is_spin acts = true /\
    exec Rev2 (acts ++ [Resume]) p = Some p' /\
    caller_ p' = Idle /\
    tasks_pool_ p' = tasks_pool_ p /\
    (caller_ p <> InStart_clean_up ->
     alive_ p' = false /\ threads_pool_ p' = []) /\
    (caller_ p = InStart_clean_up ->
     alive_ p' = true /\ threads_pool_ p' = repeat AtWhile n).
Proof.
  intros Hn Hp Hc.
  destruct (reachable_consistent Rev2 n Hn p Hp) as [Hcount _ _ _ Hcall].
  assert (Hs : stopping (caller_ p) = true)
    by (destruct Hc as [->|[->| ->]]; done).
  assert (Hnp : notify_pending (caller_ p) = false)
    by (destruct Hc as [->|[->| ->]]; done).
  specialize (Hcall Hs).
  destruct (Rev2_workers_return n p Hn Hp Hcall Hnp) as
    (acts & p1 & Hsp & He & Hr & Ha & Hc1 & Hq).
  exists acts. rewrite exec_app, He. cbn. unfold resume, clean_up.
  rewrite Hc1, Hr.
  destruct Hc as [E|[E|E]]; rewrite E; cbn; eexists;
    (split; [done |]); (split; [done |]); fields;
    (split; [done |]); (split; [done |]); split; intros; try done.
  rewrite <- Hcount, spawn_repeat. split; [done |].
  assert (threads_count_ p1 = threads_count_ p) as ->; [|done].
  destruct (reachable_consistent Rev2 n Hn p1) as [Hcount1 _ _ _ _];
    [by eapply exec_reachable_from | congruence].
Qed.

Lemma Rev2_clean_up_completes_witness :
  let p := mkThreadPool 1 [] false [Woken] false 0 InStop_clean_up in
  exec Rev2 [CallStart; Spin 0; Spin 0; Spin 0; Spin 0; CallStop SYNC; Resume]
       (ThreadPool_new 1) = Some p /\
  exists acts p',
    exec Rev2 (acts ++ [Resume]) p = Some p' /\
    caller_ p' = Idle /\ threads_pool_ p' = [].
Proof.
  intros p.
  assert (Hexec : exec Rev2 [CallStart; Spin 0; Spin 0; Spin 0; Spin 0;
                             CallStop SYNC; Resume]
                       (ThreadPool_new 1) = Some p) by reflexivity.
  split; [exact Hexec |].
  destruct (Rev2_clean_up_completes 1 p eq_refl
              (exec_reachable Rev2 1 _ p Hexec) (or_introl eq_refl))
    as (acts & p' & _ & He & Hc & _ & H & _).
  exists acts, p'. split; [exact He |]. split; [exact Hc |].
  destruct H as [_ H]; [discriminate | exact H].
Defined.

(** ** stop(ASYNC) then joinAll() *)

Lemma step_background_caller v a c p :
  background a = true ->
  step v a (set_caller c p) = set_caller c <$> step v a p.
Proof.
  intros Ha. destruct a; try discriminate Ha; cbn;
    unfold spin, addTask, clear, is_pending; cbn;
    repeat match goal with
           | |- context [match ?x with _ => _ end] => destruct x; cbn
           end; reflexivity.
Qed.

Lemma exec_background_caller v acts c p :
  forallb background acts = true ->
  exec v acts (set_caller c p) = set_caller c <$> exec v acts p.
Proof.
  revert p. induction acts as [|a acts IH]; intros p Hb; simpl; [done |].
  simpl in Hb. apply andb_prop in Hb as [Ha Hb].
  rewrite step_background_caller by done.
  destruct (step v a p) as [p1|]; cbn; [by apply IH | done].
Qed.

Lemma background_frame v a p p' :
  background a = true -> step v a p = Some p' ->
  alive_ p' = alive_ p /\
  length (threads_pool_ p') = length (threads_pool_ p).
Proof.
  intros Ha H.
  step_cases H; try discriminate Ha; try notify_one_split; fields;
    rewrite ?length_insert; try done; use_eqs; done.
Qed.

Lemma exec_background_frame v acts p p' :
  forallb background acts = true -> exec v acts p = Some p' ->
  alive_ p' = alive_ p /\
  length (threads_pool_ p') = length (threads_pool_ p).
Proof.
  revert p. induction acts as [|a acts IH]; intros p Hb; simpl.
  - by intros [= <-].
  - simpl in Hb. apply andb_prop in Hb as [Ha Hb].
    destruct (step v a p) as [p1|] eqn:Hstep; [|done].
    intros He. destruct (background_frame v a p p1 Ha Hstep) as [Ea El].
    destruct (IH p1 Hb He) as [Ea' El']. split; congruence.
Qed.

Lemma join_after_stop v acts q :
  forallb background acts = true ->
  alive_ q = false -> threads_pool_ q <> [] ->
  exec v (acts ++ [CallJoinAll; Resume]) (set_caller Idle q) =
  exec v (acts ++ [Resume]) (set_caller InStop_clean_up q).
Proof.
  intros Hb Ha Ht.
  rewrite !exec_app, !exec_background_caller by done.
  destruct (exec v acts q) as [r|] eqn:He; cbn; [|done].
  destruct (exec_background_frame v acts q r Hb He) as [Har Hlr].
  unfold when_idle, joinAll, resume, clean_up. cbn. rewrite Har, Ha.
  destruct (threads_pool_ r) as [|c pool] eqn:E.
  - destruct (threads_pool_ q); [done | discriminate Hlr].
  - cbn. unfold resume, clean_up. cbn. rewrite E.
    change (has_returned c && forallb has_returned pool)
      with (forallb has_returned (c :: pool)).
    by destruct (forallb has_returned (c :: pool)).
Qed.

(** [X11] [stop(ASYNC)] followed by [joinAll()] does what [stop(SYNC)]
    does.  On a pool with threads, for every behaviour of the workers and
    of the threads that add or clear tasks in between, the two sequences
    of calls are blocked together or end in the same pool. *)
Theorem stop_async_then_joinAll v p acts :
  caller_ p = Idle ->
  threads_pool_ p <> [] ->
  forallb background acts = true ->
  exec v (stop_calls v ASYNC ++ acts ++ [CallJoinAll; Resume]) p =
  exec v (stop_calls v SYNC ++ acts ++ [Resume]) p.
Proof.
  intros Hc Ht Hb.
  destruct (threads_pool_ p) as [|c pool] eqn:E; [done |].
  destruct v; unfold stop_calls;
    cbn [app exec step]; unfold when_idle, stop; rewrite Hc.
  - cbn [stop_tail]. rewrite E.
    apply (join_after_stop Rev0 acts (set_alive false p) Hb); [done |].
    cbn. by rewrite E.
  - cbn [resume caller_ set_caller set_alive threads_pool_ stop_tail].
    rewrite E.
    apply (join_after_stop Rev1 acts
             (set_threads_pool (notify_all (c :: pool)) (set_alive false p)) Hb);
      done.
  - destruct (guardian_ p); [done |].
    cbn [resume caller_ set_caller set_alive threads_pool_ stop_tail].
    rewrite E.
    apply (join_after_stop Rev2 acts
             (set_threads_pool (notify_all (c :: pool)) (set_alive false p)) Hb);
      done.
Qed.

Lemma stop_async_then_joinAll_witness :
  let p := mkThreadPool 1 [] false [AtWhile] true 0 Idle in
  let p' := mkThreadPool 1 [6] false [] false 0 Idle in
  exec Rev2 (stop_calls Rev2 ASYNC ++ [Spin 0; AddTask 6 0] ++ [CallJoinAll; Resume]) p
    = Some p' /\
  exec Rev2 (stop_calls Rev2 SYNC ++ [Spin 0; AddTask 6 0] ++ [Resume]) p
    = Some p'.
Proof.
  intros p p'.
  assert (H : exec Rev2 (stop_calls Rev2 ASYNC ++ [Spin 0; AddTask 6 0]
                           ++ [CallJoinAll; Resume]) p = Some p') by reflexivity.
  split; [exact H |].
  rewrite <- (stop_async_then_joinAll Rev2 p [Spin 0; AddTask 6 0]
                eq_refl ltac:(discriminate) eq_refl).
  exact H.
Defined.

(** ** Spurious wake-ups *)

(** [X12] The wait of [spin()] re-evaluates its predicate after every
    wake-up.  In the revisions with a condition variable, a worker woken
    spuriously while the pool is up and the queue empty takes the lock,
    finds the predicate false and parks again, leaving the pool exactly
    as it was; woken while the pool is down or a task is queued, it leaves
    the wait with the lock held. *)
Theorem spurious_wake_reparks v p i :
  v <> Rev0 ->
  threads_pool_ p !! i = Some Parked ->
  guardian_ p = false ->
  (alive_ p = true -> tasks_pool_ p = [] ->
   exec v [SpuriousWake i; Spin i; Spin i; Spin i] p = Some p) /\
  (alive_ p = false \/ tasks_pool_ p <> [] ->
   exec v [SpuriousWake i; Spin i; Spin i] p =
     Some (set_thread i AtIf (set_guardian true p))).
Proof.
  intros Hv Hi Hg.
  assert (Hlt : i < length (threads_pool_ p)) by by eapply lookup_lt_Some.
  assert (Hstart :
    exec v [SpuriousWake i; Spin i] p =
      Some (set_thread i AtPred (set_guardian true p))).
  { destruct v; [done | |]; cbn; rewrite Hi; cbn; unfold spin; fields;
      rewrite list_lookup_insert_eq by (by rewrite ?length_insert); rewrite Hg; cbn;
      unfold set_thread, set_threads_pool, set_guardian; cbn;
      by rewrite list_insert_insert_eq. }
  split.
  - intros Ha Hq.
    change [SpuriousWake i; Spin i; Spin i; Spin i]
      with ([SpuriousWake i; Spin i] ++ [Spin i; Spin i]).
    rewrite exec_app, Hstart. cbn. unfold spin, is_pending. fields.
    rewrite list_lookup_insert_eq by (by rewrite ?length_insert). rewrite Ha, Hq. cbn.
    unfold spin. fields.
    rewrite list_lookup_insert_eq by (by rewrite ?length_insert).
    unfold set_thread, set_threads_pool, set_guardian. cbn.
    rewrite !list_insert_insert_eq, list_insert_id by done.
    destruct p; cbn in *. by rewrite Hg.
  - intros Hcase.
    change [SpuriousWake i; Spin i; Spin i]
      with ([SpuriousWake i; Spin i] ++ [Spin i]).
    rewrite exec_app, Hstart. cbn. unfold spin, is_pending. fields.
    rewrite list_lookup_insert_eq by (by rewrite ?length_insert).
    assert (negb (alive_ p) ||
            match tasks_pool_ p with [] => false | _ :: _ => true end = true) as ->.
    { destruct Hcase as [-> | Hq]; [done |].
      destruct (tasks_pool_ p); [done | by rewrite orb_true_r]. }
    unfold set_thread, set_threads_pool, set_guardian. cbn.
    by rewrite list_insert_insert_eq.
Qed.

Lemma spurious_wake_reparks_witness :
  let p := mkThreadPool 2 [] false [AtRun 3; Parked] true 1 Idle in
  exec Rev1 [SpuriousWake 1; Spin 1; Spin 1; Spin 1] p = Some p.
Proof.
  intros p.
  destruct (spurious_wake_reparks Rev1 p 1) as [H _].
  - discriminate.
  - reflexivity.
  - reflexivity.
  - exact (H eq_refl eq_refl).
Defined.

(** ** Work done after a stop *)

Lemma down_step v a p p' :
  is_call_start a = false ->
  alive_ p = false -> caller_ p <> InStart_clean_up ->
  step v a p = Some p' ->
  alive_ p' = false /\ caller_ p' <> InStart_clean_up /\
  length (option_list (claims a p)) + tally before_dequeue (threads_pool_ p')
    <= tally before_dequeue (threads_pool_ p).
Proof.
  intros Ha Hd Hc H.
  step_cases H; try discriminate Ha; try congruence.
  all: try notify_one_split.
  all: ledger_fields; fields; use_eqs; simpl option_list; cbn [length].
  all: split; [congruence |].
  all: split;
    [try congruence; unfold stop_tail;
     repeat match goal with
            | |- context [match ?x with _ => _ end] => destruct x
            end; congruence |].
  all: rewrite ?tally_notify_all by done.
  all: try (cbn [tally]; lia).
  all: tally_facts; cbn [b2n before_dequeue tally] in *; lia.
Qed.

(** [X13] Once the pool is down, every worker dequeues at most one more
    task, in every revision.  Along every schedule without a call of
    [start()], from a pool that is down, the pool stays down and the
    number of tasks dequeued is at most the number of workers that were
    between their test of [while(alive_)] and their dequeue; these workers
    are at most [threads_count_]. *)
Theorem stop_overrun_bounded v acts :
  forall p l p' l',
    alive_ p = false -> caller_ p <> InStart_clean_up ->
    forallb (fun a => negb (is_call_start a)) acts = true ->
    run v acts p l = Some (p', l') ->
    alive_ p' = false /\
    length (dequeued l') <=
      length (dequeued l) + tally before_dequeue (threads_pool_ p) /\
    tally before_dequeue (threads_pool_ p) <= length (threads_pool_ p).
Proof.
  induction acts as [|a acts IH]; intros p l p' l' Hd Hc Hs; simpl.
  - intros [= <- <-]. split; [done |]. split; [lia | apply tally_le].
  - simpl in Hs. apply andb_prop in Hs as [Ha Hs].
    apply negb_true_iff in Ha.
    destruct (step v a p) as [p1|] eqn:Hstep; [|done].
    intros Hrun.
    destruct (down_step v a p p1 Ha Hd Hc Hstep) as (Hd1 & Hc1 & Hle).
    destruct (IH p1 _ p' l' Hd1 Hc1 Hs Hrun) as (Hd' & Hdq & _).
    rewrite dequeued_record, length_app in Hdq.
    split; [done |]. split; [lia | apply tally_le].
Qed.

Lemma stop_overrun_bounded_witness :
  let p := mkThreadPool 1 [7; 8] false [AtLock] false 0 Idle in
  let p' := mkThreadPool 1 [8] false [Returned] false 0 Idle in
  let l' := mkLedger [] [] [7] [7] [] in
  exec Rev1 [AddTask 7 0; AddTask 8 0; CallStart; Spin 0; CallStop ASYNC; Resume]
       (ThreadPool_new 1) = Some p /\
  run Rev1 [Spin 0; Spin 0; Spin 0; Spin 0; Spin 0; Spin 0; Spin 0; Spin 0]
      p no_entries = Some (p', l') /\
  length (dequeued l') <= 0 + 1.
Proof.
  intros p p' l'.
  assert (Hrun : run Rev1 [Spin 0; Spin 0; Spin 0; Spin 0; Spin 0; Spin 0; Spin 0; Spin 0]
                     p no_entries = Some (p', l')) by reflexivity.
  split; [reflexivity |]. split; [exact Hrun |].
  destruct (stop_overrun_bounded Rev1
              [Spin 0; Spin 0; Spin 0; Spin 0; Spin 0; Spin 0; Spin 0; Spin 0]
              p no_entries p' l' eq_refl ltac:(discriminate) eq_refl Hrun)
    as (_ & H & _).
  exact H.
Defined.

(** ** [clean_up()] in [Rev0] *)

Lemma polling_left_insert (l : list spin_pc) i c c' :
  l !! i = Some c ->
  polling_left (<[i := c']> l) + polls_left c = polling_left l + polls_left c'.
Proof.
  revert i. induction l as [|x l IH]; intros [|i] Hi; simpl in *; try done.
  - injection Hi as ->. lia.
  - specialize (IH i Hi). lia.
Qed.

Lemma Rev0_down_progress n p :
  (Z.of_nat n < SIZE_MOD)%Z ->
  reachable Rev0 n p ->
  alive_ p = false ->
  forallb has_returned (threads_pool_ p) = false ->
  exists i p',
    step Rev0 (Spin i) p = Some p' /\
    polling_left (threads_pool_ p') < polling_left (threads_pool_ p) /\
    alive_ p' = false /\ caller_ p' = caller_ p.
Proof.
  intros Hn Hp Ha Hret.
  destruct (reachable_consistent Rev0 n Hn p Hp) as [_ _ Hlock _ _].
  pose proof (reachable_polling n p Hp) as Hwait.
  pose proof (reachable_pop_nonempty Rev0 n p Hn Hp) as Hpop.
  assert (Hpick : exists i c,
             threads_pool_ p !! i = Some c /\ has_returned c = false /\
             (guardian_ p = true -> holds_lock c = true)).
  { destruct (guardian_ p) eqn:Hg.
    - destruct (tally_pos_lookup holds_lock (threads_pool_ p)) as (i & c & Hi & Hh).
      + rewrite Hlock. simpl. lia.
      + exists i, c. repeat split; try done. by destruct c.
    - destruct (not_all_returned _ Hret) as (i & c & Hi & Hr).
      exists i, c. repeat split; done. }
  destruct Hpick as (i & c & Hi & Hr & Hh).
  pose proof (tally_zero_lookup in_wait _ i c Hwait Hi) as Hw.
  exists i. cbn. unfold spin. rewrite Hi.
  destruct (guardian_ p) eqn:Hg.
  - specialize (Hh eq_refl).
    destruct c; try discriminate.
    + destruct (is_pending p); eexists; (split; [done |]); fields;
        match goal with
        | |- polling_left (<[_ := ?c']> _) < _ /\ _ =>
            pose proof (polling_left_insert _ i _ c' Hi)
        end; cbn in *; repeat split; (done || lia).
    + specialize (Hpop (tally_lookup at_pop _ i _ Hi eq_refl)).
      unfold is_pending in Hpop.
      destruct (tasks_pool_ p) as [|t rest]; [done |].
      eexists. split; [done |]. fields.
      pose proof (polling_left_insert _ i _ (AtInc t) Hi).
      cbn in *. repeat split; (done || lia).
    + eexists. split; [done |]. fields.
      pose proof (polling_left_insert _ i _ AtWhile Hi).
      cbn in *. repeat split; (done || lia).
  - pose proof (tally_insert holds_lock _ i c Returned Hi) as Hfree.
    rewrite Hlock in Hfree. cbn in Hfree.
    destruct c; try discriminate; rewrite ?Ha; cbn in *; try lia;
      eexists; (split; [done |]); fields;
      match goal with
      | |- polling_left (<[_ := ?c']> _) < _ /\ _ =>
          pose proof (polling_left_insert _ i _ c' Hi)
      end; cbn in *; repeat split; (done || lia).
Qed.

Lemma Rev0_workers_return n p :
  (Z.of_nat n < SIZE_MOD)%Z ->
  reachable Rev0 n p ->
  alive_ p = false ->
  exists acts p',
    forallb is_spin acts = true /\
    exec Rev0 acts p = Some p' /\
    forallb has_returned (threads_pool_ p') = true /\
    alive_ p' = false /\ caller_ p' = caller_ p.
Proof.
  intros Hn.
  remember (polling_left (threads_pool_ p)) as m eqn:Hm.
  revert p Hm. induction (lt_wf m) as [m _ IH]. intros p -> Hp Ha.
  destruct (forallb has_returned (threads_pool_ p)) eqn:Hret.
  - exists [], p. by repeat split.
  - destruct (Rev0_down_progress n p Hn Hp Ha Hret)
      as (i & p1 & Hstep & Hlt & Ha1 & Hc1).
    destruct (IH _ Hlt p1 eq_refl) as (acts & p' & Hs & He & Hr & Ha' & Hc').
    + by eapply reachable_step.
    + done.
    + exists (Spin i :: acts), p'.
      change (exec Rev0 (Spin i :: acts) p)
        with (match step Rev0 (Spin i) p with
              | Some q => exec Rev0 acts q
              | None => None
              end).
      rewrite Hstep. repeat split; try done; congruence.
Qed.

(** [X14] In [Rev0], where workers poll, no call stays blocked in
    [clean_up()]: from every reachable pool whose owner is in the
    [clean_up()] of [stop(SYNC)] or [joinAll()], some schedule of worker
    steps lets every thread return (each [run()] returning), and the call
    then completes with the pool down and without threads. *)
Theorem Rev0_clean_up_completes n p :
  (Z.of_nat n < SIZE_MOD)%Z ->
  reachable Rev0 n p ->
  caller_ p = InStop_clean_up \/ caller_ p = InJoinAll_clean_up ->
  exists acts p',
    forallb is_spin acts = true /\
    exec Rev0 (acts ++ [Resume]) p = Some p' /\
    caller_ p' = Idle /\ alive_ p' = false /\ threads_pool_ p' = [].
Proof.
  intros Hn Hp Hc.
  destruct (reachable_consistent Rev0 n Hn p Hp) as [_ _ _ _ Hcall].
  assert (Hs : stopping (caller_ p) = true)
    by (destruct Hc as [->| ->]; done).
  specialize (Hcall Hs).
  destruct (Rev0_workers_return n p Hn Hp Hcall) as
    (acts & p1 & Hsp & He & Hr & Ha & Hc1).
  exists acts. rewrite exec_app, He. cbn. unfold resume, clean_up.
  rewrite Hc1, Hr.
  destruct Hc as [E|E]; rewrite E; cbn; eexists;
    (split; [done |]); (split; [done |]); fields; repeat split; done.
Qed.

Lemma Rev0_clean_up_completes_witness :
  let p := mkThreadPool 1 [7] true [AtIf] false 0 InStop_clean_up in
  exec Rev0 [AddTask 7 0; CallStart; Spin 0; Spin 0; CallStop SYNC]
       (ThreadPool_new 1) = Some p /\
  exists acts p',
    exec Rev0 (acts ++ [Resume]) p = Some p' /\
    caller_ p' = Idle /\ threads_pool_ p' = [].
Proof.
  intros p.
  assert (Hexec : exec Rev0 [AddTask 7 0; CallStart; Spin 0; Spin 0; CallStop SYNC]
                       (ThreadPool_new 1) = Some p) by reflexivity.
  split; [exact Hexec |].
  destruct (Rev0_clean_up_completes 1 p eq_refl
              (exec_reachable Rev0 1 _ p Hexec) (or_introl eq_refl))
    as (acts & p' & _ & He & Hc & _ & H).
  exists acts, p'. split; [exact He |]. split; [exact Hc | exact H].
Defined.
